(** * ARRCON: the RCON session, the frame receiver and the command driver

    A shallow embedding of the parts of the client that talk to the server
    ([rcon::authenticate], [rcon::command], [net::recv_packet], [net::flush],
    [net::close_socket], [net::cleanup]) and of the driver ([get_commands],
    [read_script_file], the tail of [main]).

    The operating system is the environment of these functions.  Every call
    that asks it something ([recv], [select], [send], [connect]) takes its
    answer from a script held in the state, so a theorem quantified over the
    state covers every behaviour of the peer.  [sleep_for] has no effect on
    the state and is left out. *)

From Stdlib Require Import ZArith List String Ascii Bool Lia.
Import ListNotations.
Open Scope string_scope.
Open Scope Z_scope.

(** ** Results of effectful code *)

(** The exception classes the sources throw; all of them are caught by the
    handlers at the end of [main]. *)
Inductive exn : Type :=
| socket_exception (where_ what : string)
| connection_exception (where_ what : string)
| badpass_exception
| make_exception (what : string).

(** A call returns a value, throws, or never returns because a blocking
    socket call waits for data that does not come. *)
Inductive outcome (W A : Type) : Type :=
| Ret (a : A) (w : W)
| Throw (e : exn) (w : W)
| Block (w : W).
Arguments Ret {W A} a w.
Arguments Throw {W A} e w.
Arguments Block {W A} w.

Definition M (W A : Type) : Type := W -> outcome W A.

Definition ret {W A} (a : A) : M W A := fun w => Ret a w.

Definition bind {W A B} (m : M W A) (k : A -> M W B) : M W B :=
  fun w =>
    match m w with
    | Ret a w' => k a w'
    | Throw e w' => Throw e w'
    | Block w' => Block w'
    end.

Definition throw {W A} (e : exn) : M W A := fun w => Throw e w.

Declare Scope io_scope.
Delimit Scope io_scope with io.
Notation "x <- m ;; k" := (bind m (fun x => k))
  (at level 61, m at next level, right associativity) : io_scope.
Notation "m ;; k" := (bind m (fun _ => k))
  (at level 61, right associativity) : io_scope.
Open Scope io_scope.

(** ** Packets *)

Module packet.

Record Packet : Type := mkPacket { size : Z; id : Z; type : Z; body : string }.

(** Modelled from the spec: the bounds of [packet.hpp], which is not among
    the sources; the spec gives [PSIZE_MIN = 10] and [PSIZE_MAX = 4096]. *)
Definition PSIZE_MIN : Z := 10.
Definition PSIZE_MAX : Z := 4096.

(** Modelled from the spec: the type codes of [packet::Type]. *)
Module Type_.
Definition SERVERDATA_AUTH : Z := 3.
Definition SERVERDATA_AUTH_RESPONSE : Z := 2.
Definition SERVERDATA_EXECCOMMAND : Z := 2.
Definition SERVERDATA_RESPONSE_VALUE : Z := 0.
End Type_.

(** Modelled from the spec: the constructor [Packet{ id, type, body }];
    the derived size counts id, type, body and the two terminators. *)
Definition make (id_ type_ : Z) (body_ : string) : Packet :=
  {| size := Z.of_nat (String.length body_) + PSIZE_MIN;
     id := id_; type := type_; body := body_ |}.

(** Modelled from the spec: the stream insertion operator of [Packet]
    ([packet.hpp] is not among the sources); the spec's session renders a
    frame by emitting its body. *)
Definition show (p : Packet) : string := body p.

(** A C++ [int] wraps around at 32 bits. *)
Definition wrap32 (z : Z) : Z := (z + 2 ^ 31) mod 2 ^ 32 - 2 ^ 31.

End packet.
Import packet.

(** ** The session: [rcon.hpp]

    [rcon.hpp] reaches the socket only through [net::send_packet],
    [net::recv_packet], [net::flush] and [select]; the state below holds
    what those calls answer and records what the session did. *)

Module rcon.

(** What a read of the socket finds next: a whole frame, or a peer that
    has closed the connection ([recv] returns 0 and [net::recv_packet]
    throws). *)
Inductive rx_event : Type :=
| Frame (p : Packet)
| ConnectionLost.

(** One insertion into [std::cout]. *)
Inductive out_item : Type :=
| OutPacket (p : Packet)     (* std::cout << p      *)
| OutBody (p : Packet)       (* std::cout << p.body *)
| OutEndl.                   (* std::cout << std::endl *)

Definition render (o : out_item) : string :=
  match o with
  | OutPacket p => show p
  | OutBody p => body p
  | OutEndl => String "010"%char EmptyString
  end.

Record World : Type := mkWorld {
  ID_Manager : Z;             (* packet::ID_Manager, the id counter *)
  inbound : list rx_event;    (* what the successive reads find *)
  readable : list bool;       (* answers of the successive select(...) == 1 *)
  sendable : list bool;       (* answers of the successive net::send_packet *)
  sent : list Packet;         (* packets handed to net::send_packet *)
  cout : list out_item        (* insertions into std::cout *)
}.

(** The text on standard output. *)
Definition stdout (w : World) : string :=
  fold_right String.append EmptyString (map render (cout w)).

(** The same text for any other stream insertion operator of [Packet]. *)
Definition stdout_with (show_ : Packet -> string) (w : World) : string :=
  fold_right String.append EmptyString
    (map (fun o => match o with OutPacket p => show_ p | _ => render o end)
         (cout w)).

Definition with_ID (n : Z) (w : World) : World :=
  mkWorld n (inbound w) (readable w) (sendable w) (sent w) (cout w).
Definition with_inbound (l : list rx_event) (w : World) : World :=
  mkWorld (ID_Manager w) l (readable w) (sendable w) (sent w) (cout w).
Definition with_readable (l : list bool) (w : World) : World :=
  mkWorld (ID_Manager w) (inbound w) l (sendable w) (sent w) (cout w).
Definition with_send (l : list bool) (p : Packet) (w : World) : World :=
  mkWorld (ID_Manager w) (inbound w) (readable w) l (sent w ++ [p]) (cout w).
Definition with_cout (o : out_item) (w : World) : World :=
  mkWorld (ID_Manager w) (inbound w) (readable w) (sendable w) (sent w)
          (cout w ++ [o]).

Definition IO := M World.

(** Modelled from the spec: [packet::ID_Manager.get()] ([packet.hpp] is
    not among the sources), a process-wide 32-bit counter incremented on
    every allocation. *)
Definition ID_Manager_get : IO Z :=
  fun w => Ret (ID_Manager w) (with_ID (wrap32 (ID_Manager w + 1)) w).

(** [net::send_packet]: true when the whole packet was written; a script
    that has run out means the write succeeds. *)
Definition send_packet (p : Packet) : IO bool :=
  fun w => Ret (hd true (sendable w)) (with_send (tl (sendable w)) p w).

(** [net::recv_packet]: the next frame; "Connection Lost!" when the peer
    has closed; no return while nothing arrives. *)
Definition recv_packet : IO Packet :=
  fun w =>
    match inbound w with
    | Frame p :: l => Ret p (with_inbound l w)
    | ConnectionLost :: l =>
        Throw (make_exception "Connection Lost!") (with_inbound l w)
    | [] => Block w
    end.

(** [select(...) == 1]; a script that has run out means a timeout. *)
Definition select : IO bool :=
  fun w => Ret (hd false (readable w)) (with_readable (tl (readable w)) w).

Definition print (o : out_item) : IO unit :=
  fun w => Ret tt (with_cout o w).

(** The [do { recv } while (select == 1)] of [net::flush]: every read
    takes what is pending, and a read of 0 bytes throws. *)
Fixpoint flush_loop (sel : list bool) (w : World) {struct sel}
  : outcome World unit :=
  match inbound w with
  | [] => Block w
  | ConnectionLost :: l =>
      Throw (make_exception "Connection Lost!") (with_inbound l w)
  | Frame _ :: l =>
      match sel with
      | true :: sel' => flush_loop sel' (with_readable sel' (with_inbound l w))
      | _ => Ret tt (with_readable (tl sel) (with_inbound l w))
      end
  end.

(** [net::flush(sd)] with [do_check_first = true]. *)
Definition flush : IO unit :=
  pending <- select ;;
  if negb pending then ret tt
  else fun w => flush_loop (readable w) w.

(** [rcon::authenticate]. *)
Definition authenticate (passwd : string) : IO bool :=
  pid <- ID_Manager_get ;;
  sent_ok <- send_packet (make pid Type_.SERVERDATA_AUTH passwd) ;;
  if sent_ok then
    p <- recv_packet ;;
    ret (id p =? pid)
  else ret false.

(** The [for] loop of [rcon::command].  Each test of the condition takes
    one answer of [select]; the body looks at the packet in [p], and the
    increment receives the next one.  The body's [p = {}] is overwritten
    by the increment before anything reads it. *)
Fixpoint command_loop (terminator_pid : Z) (sel : list bool) (i : nat)
    (wait_for_term : bool) (p : Packet) (w : World) {struct sel}
  : outcome World (Packet * bool) :=
  match sel with
  | true :: sel' =>
      (sent_term <-
         (if Nat.eqb i 0
          then send_packet (make terminator_pid
                              Type_.SERVERDATA_RESPONSE_VALUE "TERM")
          else ret false) ;;
       let wait_for_term := sent_term || wait_for_term in
       if wait_for_term && (id p =? terminator_pid) then
         flush ;;
         ret (p, wait_for_term)
       else
         print (OutBody p) ;;
         p' <- recv_packet ;;
         command_loop terminator_pid sel' (S i) wait_for_term p')
        (with_readable sel' w)
  | _ => Ret (p, wait_for_term) (with_readable (tl sel) w)
  end.

(** [rcon::command] (the build without [MULTITHREADING]). *)
Definition command (command_ : string) : IO bool :=
  pid <- ID_Manager_get ;;
  sent_ok <- send_packet (make pid Type_.SERVERDATA_EXECCOMMAND command_) ;;
  if negb sent_ok then ret false
  else
    terminator_pid <- ID_Manager_get ;;
    p <- recv_packet ;;
    print (OutPacket p) ;;
    r <- (fun w => command_loop terminator_pid (readable w) 0 false p w) ;;
    print OutEndl ;;
    ret ((id (fst r) =? terminator_pid) || negb (snd r)).

(** The sentinel packet and the command packet. *)
Definition TERM (terminator_pid : Z) : Packet :=
  make terminator_pid Type_.SERVERDATA_RESPONSE_VALUE "TERM".

Definition EXEC (pid : Z) (command_ : string) : Packet :=
  make pid Type_.SERVERDATA_EXECCOMMAND command_.

End rcon.

(** ** The frame receiver: [net/net.hpp]

    [net::recv_packet] and [net::flush] are modelled at the level of the
    single [recv] and [select] calls. *)

Module net.

Definition SOCKET_ERROR : Z := -1.

(** What one [recv] finds: bytes that have arrived, or an error of the
    socket layer ([recv] returns [SOCKET_ERROR]). *)
Inductive rx_chunk : Type :=
| Data (bytes : list Z)
| Error.

(** One line written to [std::cerr] by [recv_packet]. *)
Inductive log_item : Type :=
| SmallSize (psize : Z)    (* "Received unexpectedly small packet size: " *)
| LargeSize (psize : Z)    (* "Received unexpectedly large packet size: " *)
| Corrupted (code : Z).    (* "Received a corrupted packet! Code " *)

Record Socket : Type := mkSocket {
  pending : list rx_chunk;  (* what arrives, in order *)
  closed : bool;            (* once [pending] is used up: true when the peer
                               has closed (recv returns 0 from then on),
                               false when it stays silent (recv blocks) *)
  readable : list bool;     (* answers of the successive SELECT(...) == 1 *)
  cerr : list log_item
}.

Definition with_pending (l : list rx_chunk) (s : Socket) : Socket :=
  mkSocket l (closed s) (readable s) (cerr s).
Definition with_readable (l : list bool) (s : Socket) : Socket :=
  mkSocket (pending s) (closed s) l (cerr s).
Definition with_cerr (m : log_item) (s : Socket) : Socket :=
  mkSocket (pending s) (closed s) (readable s) (cerr s ++ [m]).

Definition IO := M Socket.

(** [recv(sd, buf, len, 0)]: the return value and the bytes written to
    [buf].  A chunk longer than [len] is delivered in pieces. *)
Definition recv (len : Z) : IO (Z * list Z) :=
  fun s =>
    match pending s with
    | Data bytes :: l =>
        let got := firstn (Z.to_nat len) bytes in
        let left := skipn (Z.to_nat len) bytes in
        Ret (Z.of_nat (List.length got), got)
            (with_pending (match left with [] => l | _ => Data left :: l end) s)
    | Error :: l => Ret (SOCKET_ERROR, []) (with_pending l s)
    | [] => if closed s then Ret (0, []) s else Block s
    end.

(** [SELECT(sd + 1, &set, nullptr, nullptr, &timeout) == 1]. *)
Definition select : IO bool :=
  fun s => Ret (hd false (readable s)) (with_readable (tl (readable s)) s).

Definition log (m : log_item) : IO unit :=
  fun s => Ret tt (with_cerr m s).

(** The [do ... while] of [net::flush]. *)
Fixpoint flush_loop (sel : list bool) (s : Socket) {struct sel}
  : outcome Socket unit :=
  match recv PSIZE_MAX s with
  | Ret (n, _) s' =>
      if n =? 0 then
        Throw (socket_exception "net::flush()" "Connection Lost!") s'
      else
        match sel with
        | true :: sel' => flush_loop sel' (with_readable sel' s')
        | _ => Ret tt (with_readable (tl sel) s')
        end
  | Throw e s' => Throw e s'
  | Block s' => Block s'
  end.

(** [net::flush(sd)], [do_check_first] left at its default [true]. *)
Definition flush : IO unit :=
  ready <- select ;;
  if negb ready then ret tt
  else fun s => flush_loop (readable s) s.

(** The lambda [validate] of [recv_packet].  It captures [psize] and the
    variable [ret] of the function body by reference. *)
Definition validate (psize ret_ : Z) : IO unit :=
  (if ret_ =? 4 then ret tt
   else if ret_ =? 0 then
     throw (socket_exception "net::recv_packet()" "Connection Lost!")
   else if ret_ =? SOCKET_ERROR then
     throw (socket_exception "net::recv_packet()" "Connection closed by server.")
   else
     throw (socket_exception "net::recv_packet()" "Received a corrupted packet!")) ;;
  if psize <? PSIZE_MIN then log (SmallSize psize)
  else if psize >? PSIZE_MAX then (log (LargeSize psize) ;; flush)
  else ret tt.

(** Little-endian bytes of a 32-bit [int], missing bytes being zero. *)
Definition le_unsigned (bytes : list Z) : Z :=
  fold_right (fun b acc => b + 256 * acc) 0 (firstn 4 bytes).
Definition le_int (bytes : list Z) : Z := wrap32 (le_unsigned bytes).

(** Writing [bytes] at offset [off] of the area that follows the size
    field of the [serialized_packet]; the area starts zeroed and is not
    bounded here.  A write before the area is left out. *)
Definition store (off : Z) (bytes area : list Z) : list Z :=
  if off <? 0 then area
  else
    let o := Z.to_nat off in
    firstn o area ++ repeat 0 (o - List.length area) ++ bytes
      ++ skipn (o + List.length bytes) area.

(** The loop
    [for (int received{0}, ret{0}; received < psize; received += ret)].
    Its [ret] is a new variable: [validate] goes on reading the [ret] of
    the function body, written by the read of the size field only and
    passed here as [ret_]. *)
Fixpoint recv_payload (fuel : nat) (psize ret_ received : Z)
    (spacket : list Z) (s : Socket) {struct fuel}
  : option (outcome Socket (list Z)) :=
  if received <? psize then
    match fuel with
    | O => None
    | S fuel' =>
        match (r <- recv (psize - received) ;;
               validate psize ret_ ;;
               ret r) s with
        | Ret (n, bytes) s' =>
            recv_payload fuel' psize ret_ (received + n)
                         (store received bytes spacket) s'
        | Throw e s' => Some (Throw e s')
        | Block s' => Some (Block s')
        end
    end
  else Some (Ret spacket s).

(** The characters of a C string: the bytes up to the first NUL. *)
Fixpoint c_string (bytes : list Z) : string :=
  match bytes with
  | [] => EmptyString
  | b :: l =>
      if b =? 0 then EmptyString
      else String (ascii_of_N (Z.to_N b)) (c_string l)
  end.

(** Modelled from the spec: the conversion of a [serialized_packet] to a
    [Packet] ([packet.hpp] is not among the sources), after the wire
    format: id, type, then the body up to its terminator. *)
Definition deserialize (psize : Z) (spacket : list Z) : Packet :=
  {| size := psize;
     id := le_int (firstn 4 spacket);
     type := le_int (firstn 4 (skipn 4 spacket));
     body := c_string (skipn 8 spacket) |}.

(** [net::recv_packet].  [None] when the payload loop is still running
    after [fuel] rounds. *)
Definition recv_packet (fuel : nat) (s : Socket)
  : option (outcome Socket Packet) :=
  match (r <- recv 4 ;;
         let psize := le_int (snd r) in
         validate psize (fst r) ;;
         ret (psize, fst r)) s with
  | Ret (psize, ret_) s' =>
      match recv_payload fuel psize ret_ 0 [] s' with
      | Some (Ret spacket s'') => Some (Ret (deserialize psize spacket) s'')
      | Some (Throw e s'') => Some (Throw e s'')
      | Some (Block s'') => Some (Block s'')
      | None => None
      end
  | Throw e s' => Some (Throw e s')
  | Block s' => Some (Block s')
  end.

(** No [flush] can take anything: the size is not above the bound, or
    every [select] to come times out. *)
Definition quiet (psize : Z) (s : Socket) : Prop :=
  psize <= PSIZE_MAX \/ Forall (fun b => b = false) (readable s).

(** *** Closing *)

(** What the process has asked of the socket library so far. *)
Record Winsock : Type := mkWinsock {
  closesocket_calls : list Z;   (* descriptors passed to closesocket *)
  WSACleanup_calls : nat        (* number of calls of WSACleanup *)
}.

(** [net::close_socket]; [_WIN32] says whether the macro is defined. *)
Definition close_socket (_WIN32 : bool) (sd : Z) (os : Winsock) : Winsock :=
  if _WIN32 then
    mkWinsock (closesocket_calls os ++ [sd]) (S (WSACleanup_calls os))
  else os.

(** [net::cleanup], the handler registered with [std::atexit]. *)
Definition cleanup (_WIN32 : bool) (Global_socket : Z) (os : Winsock)
  : Winsock :=
  if negb (Global_socket =? SOCKET_ERROR)
  then close_socket _WIN32 Global_socket os
  else os.

End net.

(** ** The earlier frame receiver: [ARRCON/net.hpp]

    The receiver as it was before [validate] was introduced, over the same
    socket. *)

Module net0.

Import net.

(** The [do ... while] of [net::flush]. *)
Fixpoint flush_loop (sel : list bool) (s : Socket) {struct sel}
  : outcome Socket unit :=
  match recv PSIZE_MAX s with
  | Ret (n, _) s' =>
      if n =? 0 then Throw (make_exception "Connection Lost! Last Error: ") s'
      else
        match sel with
        | true :: sel' => flush_loop sel' (with_readable sel' s')
        | _ => Ret tt (with_readable (tl sel) s')
        end
  | Throw e s' => Throw e s'
  | Block s' => Block s'
  end.

Definition flush : IO unit :=
  ready <- select ;;
  if negb ready then ret tt
  else fun s => flush_loop (readable s) s.

(** The loop of [recv_packet]: the return value tested is the one of the
    read just made. *)
Fixpoint recv_payload (fuel : nat) (psize received : Z) (spacket : list Z)
    (s : Socket) {struct fuel} : option (outcome Socket (list Z)) :=
  if received <? psize then
    match fuel with
    | O => None
    | S fuel' =>
        match recv (psize - received) s with
        | Ret (n, bytes) s' =>
            if n =? 0 then
              Some (Throw (make_exception "Connection Lost! Last Error: ") s')
            else
              recv_payload fuel' psize (received + n)
                           (store received bytes spacket) s'
        | Throw e s' => Some (Throw e s')
        | Block s' => Some (Block s')
        end
    end
  else Some (Ret spacket s).

Section Receiver.

(** The default-constructed [Packet] of [packet.hpp], returned after a
    short read of the size field. *)
Variable default_Packet : Packet.

(** [net::recv_packet]. *)
Definition recv_packet (fuel : nat) (s : Socket)
  : option (outcome Socket Packet) :=
  match recv 4 s with
  | Ret (n, bytes) s' =>
      let psize := le_int bytes in
      if n =? 0 then
        Some (Throw (make_exception "Connection Lost! Last Error: ") s')
      else if negb (n =? 4) then
        Some (Ret default_Packet (with_cerr (Corrupted n) s'))
      else
        match
          (if psize <? PSIZE_MIN then log (SmallSize psize)
           else if psize >? PSIZE_MAX then (log (LargeSize psize) ;; flush)
           else ret tt) s'
        with
        | Ret _ s'' =>
            match recv_payload fuel psize 0 [] s'' with
            | Some (Ret spacket s3) => Some (Ret (deserialize psize spacket) s3)
            | Some (Throw e s3) => Some (Throw e s3)
            | Some (Block s3) => Some (Block s3)
            | None => None
            end
        | Throw e s'' => Some (Throw e s'')
        | Block s'' => Some (Block s'')
        end
  | Throw e s' => Some (Throw e s')
  | Block s' => Some (Block s')
  end.

End Receiver.

End net0.

(** ** The command list: [utils.hpp] *)

Module utils.

Definition is_whitespace (c : ascii) : bool :=
  match c with
  | " "%char | "009"%char | "010"%char | "011"%char | "013"%char => true
  | _ => false
  end.

Definition empty (s : string) : bool :=
  match s with EmptyString => true | _ => false end.

Fixpoint trim_left (s : string) : string :=
  match s with
  | String c s' => if is_whitespace c then trim_left s' else s
  | EmptyString => EmptyString
  end.

Fixpoint trim_right (s : string) : string :=
  match s with
  | String c s' =>
      let r := trim_right s' in
      if is_whitespace c && empty r then EmptyString else String c r
  | EmptyString => EmptyString
  end.

Definition trim (s : string) : string := trim_right (trim_left s).

Fixpoint contains (c : ascii) (chars : string) : bool :=
  match chars with
  | String d chars' => Ascii.eqb c d || contains c chars'
  | EmptyString => false
  end.

(** Modelled from the spec: [str::strip_line(line, comment_chars)] belongs
    to the [str] library, which is not among the sources.  The spec's
    filter trims a line and drops it when it starts with one of the
    comment characters; a dropped line is the empty string here, which
    the callers skip. *)
Definition strip_line (line comment_chars : string) : string :=
  match trim line with
  | String c s' => if contains c comment_chars then EmptyString else String c s'
  | EmptyString => EmptyString
  end.

(** The comment characters of the call [str::strip_line(ln)] in
    [get_commands], which names none: the call site documents it as
    removing the whitespace before and after the line. *)
Definition no_comment_chars : string := EmptyString.

(** What [get_commands] reads from its surroundings. *)
Record Env : Type := mkEnv {
  Parameters : list string;            (* args.getv_all<opt3::Parameter>() *)
  hasPendingDataSTDIN : bool;
  cin : list string;                   (* the lines of standard input *)
  scriptfiles : list string;           (* Global.scriptfiles *)
  file_exists : string -> bool;        (* file::exists *)
  PATH_resolve : string -> string;     (* pathvar.resolve(filename, {".txt"}) *)
  file_read : string -> option (list string)
                                       (* the lines of file::read, None when
                                          the stream failed *)
}.

(** [commands.emplace_back(ln)] when [ln] is not empty. *)
Definition emplace_nonempty (commands : list string) (ln : string)
  : list string :=
  if empty ln then commands else (commands ++ [ln])%list.

(** [read_script_file]; the warnings go to [std::cerr]. *)
Definition read_script_file (env : Env) (filename : string) : list string :=
  let filename :=
    if file_exists env filename then filename else PATH_resolve env filename in
  if negb (file_exists env filename) then []
  else
    match file_read env filename with
    | Some lines =>
        fold_left
          (fun commands lnbuf => emplace_nonempty commands (strip_line lnbuf "#;"))
          lines []
    | None => []
    end.

(** [get_commands]; the feedback lines go to [std::cout] and [std::cerr]. *)
Definition get_commands (env : Env) : list string :=
  let commands := Parameters env in
  let commands :=
    if hasPendingDataSTDIN env then
      fold_left
        (fun commands ln =>
           emplace_nonempty commands (strip_line ln no_comment_chars))
        (cin env) commands
    else commands in
  fold_left
    (fun commands file =>
       match read_script_file env file with
       | [] => commands
       | script_commands =>
           fold_left (fun commands command => (commands ++ [command])%list)
                     script_commands commands
       end)
    (scriptfiles env) commands.





End utils.

(** ** The driver: the end of [main] *)

Module driver.

(** The fields of [Global] the end of [main] reads. *)
Record Globals : Type := mkGlobals {
  hostname : string;
  port : string;
  password : string;
  allowBlankPassword : bool;
  force_interactive : bool
}.

Record Process : Type := mkProcess {
  session : rcon.World;        (* the socket as the session sees it *)
  Global_socket : Z;           (* Global.socket *)
  connect_answer : option Z    (* what net::connect returns; None when it
                                  throws *)
}.

Definition IO := M Process.

(** A call into [rcon.hpp]. *)
Definition lift {A} (m : rcon.IO A) : IO A :=
  fun w =>
    match m (session w) with
    | Ret a s => Ret a (mkProcess s (Global_socket w) (connect_answer w))
    | Throw e s => Throw e (mkProcess s (Global_socket w) (connect_answer w))
    | Block s => Block (mkProcess s (Global_socket w) (connect_answer w))
    end.

(** [Global.socket = net::connect(host, port)]. *)
Definition connect (host port_ : string) : IO unit :=
  fun w =>
    match connect_answer w with
    | Some sd => Ret tt (mkProcess (session w) sd (connect_answer w))
    | None => Throw (connection_exception "net::connect()" "Connection Failed.") w
    end.

Section Main.

(** [mode::commandline] and [mode::interactive] of [net/mode.hpp], which
    is not among the sources: any code at all. *)
Variable mode_commandline : list string -> IO unit.
Variable mode_interactive : Z -> IO unit.

(** [main] from the connection of the socket to [return 0]. *)
Definition main_body (Global : Globals) (commands : list string) : IO Z :=
  connect (hostname Global) (port Global) ;;
  sd <- (fun w => Ret (Global_socket w) w) ;;
  let connected := negb (sd =? net.SOCKET_ERROR) in
  if negb connected then
    throw (connection_exception "main()" "Socket descriptor was set to an error value.")
  else if negb (allowBlankPassword Global) && utils.empty (password Global) then
    throw (make_exception "Password cannot be blank!")
  else
    authenticated <- lift (rcon.authenticate (password Global)) ;;
    if authenticated then
      let hasCommands := negb (match commands with [] => true | _ => false end) in
      (if hasCommands then mode_commandline commands else ret tt) ;;
      (if negb hasCommands || force_interactive Global
       then mode_interactive sd else ret tt) ;;
      ret 0
    else throw badpass_exception.

(** [main] with its handlers: every exception ends in [return 1]. *)
Definition main (Global : Globals) (commands : list string)
  : Process -> outcome Process Z :=
  fun w =>
    match main_body Global commands w with
    | Ret code w' => Ret code w'
    | Throw _ w' => Ret 1 w'
    | Block w' => Block w'
    end.

End Main.

End driver.

(** ** Sending: [net::send_packet]

    The loop is the same in [net/net.hpp], [ARRCON/net.hpp] and
    [RCON/net.hpp]. *)

Module tx.

(** What one [send] finds: room for some bytes in the socket's buffer, or
    an error ([send] returns -1). *)
Inductive tx_event : Type :=
| Room (n : nat)
| Fail.

Record Line : Type := mkLine {
  script : list tx_event;   (* what the successive sends find *)
  wire : list Z             (* the bytes the socket has taken, in order *)
}.

(** [send(sd, buf, len, 0)] when it finds [ev]: the return value and the
    bytes taken from [buf]. *)
Definition send (ev : tx_event) (buf : list Z) (len : Z) : Z * list Z :=
  match ev with
  | Room n =>
      let r := Z.min (Z.of_nat n) len in
      (r, firstn (Z.to_nat r) buf)
  | Fail => (-1, [])
  end.

(** The [while (total < len)] of [send_packet]: [spacket] holds the bytes
    of the serialized packet, and the result is the last value of [ret].
    A [send] that finds nothing in the script does not return. *)
Fixpoint send_loop (evs : list tx_event) (spacket : list Z)
    (len total bytesleft ret_ : Z) (out : list Z) {struct evs}
  : outcome Line Z :=
  if total <? len then
    match evs with
    | [] => Block (mkLine [] out)
    | ev :: evs' =>
        let (r, taken) := send ev (skipn (Z.to_nat total) spacket) bytesleft in
        if r =? -1 then Ret r (mkLine evs' out)
        else send_loop evs' spacket len (total + r) (bytesleft - r) r
                       (out ++ taken)
    end
  else Ret ret_ (mkLine evs out).

(** [net::send_packet]: [size] is [packet.size] and [spacket] the bytes of
    [packet.serialize()]. *)
Definition send_packet (size : Z) (spacket : list Z) : M Line bool :=
  fun s =>
    let len := wrap32 (size + 4) in
    match send_loop (script s) spacket len 0 len (-1) (wire s) with
    | Ret r s' => Ret (negb (r =? -1)) s'
    | Throw e s' => Throw e s'
    | Block s' => Block s'
    end.

End tx.

(** The state a call leaves, however it ends. *)
Definition state_of {W A} (o : outcome W A) : W :=
  match o with Ret _ w | Throw _ w | Block w => w end.

(** ** Connecting: [net::init] and [net::connect] of [net/net.hpp] *)

Module conn.

(** One entry of the list [getaddrinfo] gives, with what [socket] and
    [connect] return for it. *)
Record addrinfo : Type := mkAddr { socket_answer : Z; connect_answer : Z }.

Record Stack : Type := mkStack {
  WSAStartup_answer : Z * bool;     (* the return code, and whether
                                       wsaData.wVersion is WINSOCK_VERSION *)
  getaddrinfo_answer : Z * list addrinfo;
  WSAStartup_calls : nat;
  created : list Z;                 (* descriptors returned by socket() *)
  lib : net.Winsock                 (* closesocket and WSACleanup so far *)
}.

Definition with_lib (l : net.Winsock) (s : Stack) : Stack :=
  mkStack (WSAStartup_answer s) (getaddrinfo_answer s) (WSAStartup_calls s)
          (created s) l.
Definition with_created (sd : Z) (s : Stack) : Stack :=
  mkStack (WSAStartup_answer s) (getaddrinfo_answer s) (WSAStartup_calls s)
          (created s ++ [sd]) (lib s).
Definition with_startup (s : Stack) : Stack :=
  mkStack (WSAStartup_answer s) (getaddrinfo_answer s)
          (S (WSAStartup_calls s)) (created s) (lib s).

(** [net::init]. *)
Definition init (_WIN32 : bool) : M Stack unit :=
  fun s =>
    if _WIN32 then
      let s' := with_startup s in
      if negb (fst (WSAStartup_answer s) =? 0) then
        Throw (make_exception "WSAStartup failed with error code ") s'
      else if negb (snd (WSAStartup_answer s)) then
        Throw (make_exception "Winsock version is invalid!") s'
      else Ret tt s'
    else Ret tt s.

(** The loop [for (p = server_info; p != NULL; p = p->ai_next)]: the
    descriptor it breaks with, or [None] when [p] ends as [NULL]. *)
Fixpoint try_hosts (_WIN32 : bool) (l : list addrinfo) (s : Stack)
  : option Z * Stack :=
  match l with
  | [] => (None, s)
  | p :: l' =>
      let sd := socket_answer p in
      if sd =? -1 then try_hosts _WIN32 l' s
      else
        let s := with_created sd s in
        if connect_answer p =? net.SOCKET_ERROR then
          try_hosts _WIN32 l' (with_lib (net.close_socket _WIN32 sd (lib s)) s)
        else (Some sd, s)
  end.

(** [net::connect]. *)
Definition connect (_WIN32 : bool) : M Stack Z :=
  init _WIN32 ;;
  fun s =>
    if negb (fst (getaddrinfo_answer s) =? 0) then
      Throw (connection_exception "net::connect()" "Name resolution failed!") s
    else
      match try_hosts _WIN32 (snd (getaddrinfo_answer s)) s with
      | (Some sd, s') => Ret sd s'
      | (None, s') =>
          Throw (connection_exception "net::connect()" "Connection Failed.") s'
      end.

(** An address on which both [socket] and [connect] succeed. *)
Definition usable (p : addrinfo) : bool :=
  negb (socket_answer p =? -1) && negb (connect_answer p =? net.SOCKET_ERROR).

(** An address whose socket was created and whose connection failed. *)
Definition refused (p : addrinfo) : bool :=
  negb (socket_answer p =? -1) && (connect_answer p =? net.SOCKET_ERROR).

(** The descriptors [socket] really returned. *)
Definition descriptors (l : list addrinfo) : list Z :=
  filter (fun sd => negb (sd =? -1)) (map socket_answer l).

End conn.


(** ** What a socket holds, and waiting for it: [net/net.hpp] *)

Module held.

Import net.



End held.

Module timing.

Record Timed : Type := mkTimed {
  sock : net.Socket;
  steady_clock : list Z       (* the successive readings of
                                 std::chrono::steady_clock::now(), in ticks *)
}.

(** The [for] loop of [wait_for_packet] from its condition on.  [per_ms]
    is the number of clock ticks in a millisecond, [maxTime] is in
    milliseconds and [elapsed] in ticks; the value returned is
    [duration_cast<milliseconds>(elapsed)], which rounds towards zero.
    [None] when the loop is still running after the last reading of the
    clock. *)
Fixpoint wait_loop (per_ms : Z) (ticks : list Z) (t0 elapsed maxTime : Z)
    (s : net.Socket) {struct ticks} : option (Z * Timed) :=
  if elapsed <? maxTime * per_ms then
    let ready := hd false (net.readable s) in
    let s' := net.with_readable (tl (net.readable s)) s in
    if ready then Some (Z.quot elapsed per_ms, mkTimed s' ticks)
    else
      match ticks with
      | [] => None
      | now :: ticks' => wait_loop per_ms ticks' t0 (t0 - now) maxTime s'
      end
  else Some (maxTime, mkTimed s ticks).

(** [net::wait_for_packet]. *)
Definition wait_for_packet (per_ms maxTime : Z) (t : Timed)
  : option (Z * Timed) :=
  match steady_clock t with
  | t0 :: now :: ticks => wait_loop per_ms ticks t0 (t0 - now) maxTime (sock t)
  | _ => None
  end.

(** A clock that never runs backwards from its first reading on. *)
Definition steady (clock : list Z) : Prop :=
  match clock with
  | [] => True
  | t0 :: ticks => Forall (fun now => t0 <= now) ticks
  end.

End timing.

(** ** The first client: [RCON/net.hpp] and [RCON/main.cpp] *)

Module RCON_net.

Import net.

(** One line written to [std::cerr] or [stderr] by the receiver. *)
Inductive log_item : Type :=
| LostAtSize                (* "Connection Lost!" *)
| InvalidSize (ret_ : Z)    (* "Receive operation failed because the packet
                               size was invalid! (" *)
| SmallSize (psize : Z)     (* "Received unexpectedly small packet size: " *)
| LargeSize (psize : Z)     (* "Received unexpectedly large packet size: " *)
| LostInFlush               (* "Connection lost.\n", from flush *)
| LostInPayload.            (* "Connection lost.\n", from recv_packet *)

Record Client : Type := mkClient {
  sock : Socket;
  cerr : list log_item;
  g_connected : bool
}.

(** A [recv] on the client's socket. *)
Definition recv (len : Z) : M Client (Z * list Z) :=
  fun st =>
    match net.recv len (sock st) with
    | Ret r s' => Ret r (mkClient s' (cerr st) (g_connected st))
    | Throw e s' => Throw e (mkClient s' (cerr st) (g_connected st))
    | Block s' => Block (mkClient s' (cerr st) (g_connected st))
    end.

Definition log (m : log_item) : M Client unit :=
  fun st => Ret tt (mkClient (sock st) (cerr st ++ [m]) (g_connected st)).

Definition disconnect : M Client unit :=
  fun st => Ret tt (mkClient (sock st) (cerr st) false).

(** [net::flush(sd, size)]: one read. *)
Definition flush (size : Z) : M Client Z :=
  r <- recv size ;;
  (if fst r =? 0 then log LostInFlush ;; disconnect else ret tt) ;;
  ret (fst r).

(** The payload loop of [recv_packet]; [None] as the result of the
    call is [std::nullopt]. *)
Fixpoint recv_payload (fuel : nat) (psize received : Z) (spacket : list Z)
    (st : Client) {struct fuel} : option (outcome Client (option (list Z))) :=
  if received <? psize then
    match fuel with
    | O => None
    | S fuel' =>
        match recv (psize - received) st with
        | Ret (n, bytes) st' =>
            if n =? 0 then
              Some ((log LostInPayload ;; disconnect ;; ret None) st')
            else
              recv_payload fuel' psize (received + n)
                           (store received bytes spacket) st'
        | Throw e st' => Some (Throw e st')
        | Block st' => Some (Block st')
        end
    end
  else Some (Ret (Some spacket) st).

(** [net::recv_packet]. *)
Definition recv_packet (fuel : nat) (st : Client)
  : option (outcome Client (option Packet)) :=
  match recv 4 st with
  | Ret (n, bytes) st' =>
      let psize := le_int bytes in
      if n =? 0 then Some ((log LostAtSize ;; ret None) st')
      else if negb (n =? 4) then
        Some ((log (InvalidSize n) ;; disconnect ;; ret None) st')
      else
        match
          (if psize <? PSIZE_MIN then log (SmallSize psize)
           else if psize >? PSIZE_MAX then
             (log (LargeSize psize) ;; flush PSIZE_MAX ;; ret tt)
           else ret tt) st'
        with
        | Ret _ st'' =>
            match recv_payload fuel psize 0 [] st'' with
            | Some (Ret (Some spacket) st3) =>
                Some (Ret (Some (deserialize psize spacket)) st3)
            | Some (Ret None st3) => Some (Ret None st3)
            | Some (Throw e st3) => Some (Throw e st3)
            | Some (Block st3) => Some (Block st3)
            | None => None
            end
        | Throw e st'' => Some (Throw e st'')
        | Block st'' => Some (Block st'')
        end
  | Throw e st' => Some (Throw e st')
  | Block st' => Some (Block st')
  end.

End RCON_net.

Module RCON_main.

Import utils.

Definition quote : string := String "034"%char EmptyString.

(** [read_script_file] of [RCON/main.cpp]: a file that is found and
    cannot be read throws.  [PATH_resolve env] stands here for the call
    of [env::PATH{}.resolve] with the five extensions it lists. *)
Definition read_script_file (env : Env) (filename : string)
  : exn + list string :=
  let filename :=
    if file_exists env filename then filename else PATH_resolve env filename in
  if negb (file_exists env filename) then inr []
  else
    match file_read env filename with
    | Some lines =>
        inr (fold_left
               (fun commands line =>
                  emplace_nonempty commands (strip_line line "#;"))
               lines [])
    | None =>
        inl (make_exception
               ("IO Error Reading File: " ++ quote ++ filename ++ quote))
    end.

(** The loop of [get_commands] over [Global.scriptfiles]; [cout] holds
    the files reported with "Successfully read commands from". *)
Fixpoint get_commands_loop (env : Env) (quiet : bool) (files : list string)
    (vec cout : list string) {struct files}
  : exn + (list string * list string) :=
  match files with
  | [] => inr (vec, cout)
  | file :: files' =>
      let sz := List.length (scriptfiles env) in
      match read_script_file env file with
      | inl e => inl e
      | inr commands =>
          let vec :=
            fold_left (fun vec command => (vec ++ [command])%list)
                      commands vec in
          let cout :=
            if negb quiet && (sz <? List.length (scriptfiles env))%nat
            then (cout ++ [file])%list else cout in
          get_commands_loop env quiet files' vec cout
      end
  end.

(** [get_commands] of [RCON/main.cpp]: the commands and what was written
    to [std::cout], or the exception. *)
Definition get_commands (env : Env) (quiet : bool)
  : exn + (list string * list string) :=
  get_commands_loop env quiet (scriptfiles env) (Parameters env) [].

(** A script file that is found and whose stream fails. *)
Definition unreadable (env : Env) (filename : string) : bool :=
  let filename :=
    if file_exists env filename then filename else PATH_resolve env filename in
  file_exists env filename
  && match file_read env filename with Some _ => false | None => true end.

End RCON_main.
(** ** Scenarios and the claims they are measured against *)

Module scenario.

Import rcon.

(** S2: the reply to [status] comes in three frames with the command's id,
    then the echo of the sentinel; every frame is readable as soon as the
    client asks. *)
Definition s2 : World :=
  mkWorld 2
    [Frame (make 2 Type_.SERVERDATA_RESPONSE_VALUE "AAA");
     Frame (make 2 Type_.SERVERDATA_RESPONSE_VALUE "BBB");
     Frame (make 2 Type_.SERVERDATA_RESPONSE_VALUE "CCC");
     Frame (make 3 Type_.SERVERDATA_RESPONSE_VALUE "")]
    [true; true; true; false] [] [] [].

(** The first frame of S2 alone: nothing else becomes readable. *)
Definition s2_first_only : World :=
  mkWorld 2 [Frame (make 2 Type_.SERVERDATA_RESPONSE_VALUE "AAA")] [] [] [] [].

(** S5: an empty ResponseValue with the request's id, then the
    AuthResponse. *)
Definition s5 : World :=
  mkWorld 1
    [Frame (make 1 Type_.SERVERDATA_RESPONSE_VALUE "");
     Frame (make 1 Type_.SERVERDATA_AUTH_RESPONSE "")]
    [] [] [] [].

(** A reply in which a frame with a foreign id (99) sits between the
    command's frame and the echo of the sentinel. *)
Definition foreign : World :=
  mkWorld 2
    [Frame (make 2 Type_.SERVERDATA_RESPONSE_VALUE "A");
     Frame (make 99 Type_.SERVERDATA_RESPONSE_VALUE "X");
     Frame (make 3 Type_.SERVERDATA_RESPONSE_VALUE "")]
    [true; true; false] [] [] [].

(** One frame, after which nothing becomes readable. *)
Definition lonely : World :=
  mkWorld 2 [Frame (make 2 Type_.SERVERDATA_RESPONSE_VALUE "ok")] [] [] [] [].

(** The frames whose body [w'] has on standard output beyond [n] earlier
    insertions. *)
Definition emitted_from (n : nat) (w' : World) : list Packet :=
  flat_map (fun o => match o with
                     | OutPacket p | OutBody p => [p]
                     | OutEndl => []
                     end)
           (skipn n (cout w')).

(** Sentinel-based reassembly as the spec states it: the output of the
    command is the concatenation of the bodies of the command's frames. *)
Definition reassembles (command_ : string) (w : World) (fs : list Packet)
  : Prop :=
  exists b w',
    command command_ w = Ret b w' /\
    stdout w' = stdout w ++ fold_right String.append "" (map body fs)
                         ++ render OutEndl.

(** Id correlation as the spec states it, on a successful run from [w]:
    every emitted frame carries the command's id. *)
Definition id_correlated (command_ : string) (w : World) : Prop :=
  forall w', command command_ w = Ret true w' ->
    Forall (fun p => id p = ID_Manager w)
           (emitted_from (List.length (cout w)) w').

(** The leading empty response as the spec states it: authentication
    succeeds and has consumed both frames. *)
Definition leading_empty_discarded (passwd : string) (w : World) : Prop :=
  exists w', authenticate passwd w = Ret true w' /\ inbound w' = [].

(** The size field announces 14 bytes, then the peer closes the
    connection. *)
Definition truncated : net.Socket :=
  net.mkSocket [net.Data [14; 0; 0; 0]] true [] [].




(** The socket library torn down at most once by two calls of
    [close_socket] in a process that has not torn it down before. *)
Definition torn_down_once (_WIN32 : bool) (sd : Z) : Prop :=
  (net.WSACleanup_calls
     (net.close_socket _WIN32 sd
        (net.close_socket _WIN32 sd (net.mkWinsock [] 0))) <= 1)%nat.


(** A server that answers the Auth request with id -1. *)
Definition rejecting : driver.Process :=
  driver.mkProcess
    (mkWorld 1 [Frame (make (-1) Type_.SERVERDATA_AUTH_RESPONSE "")] [] [] [] [])
    net.SOCKET_ERROR (Some 3).

Definition wrong_password : driver.Globals :=
  driver.mkGlobals "localhost" "27015" "wrong" false false.

Definition no_password : driver.Globals :=
  driver.mkGlobals "localhost" "27015" "" false false.

End scenario.


(** ** Further runs *)

Module cases.

(** The frame of an empty reply with id 7, and of the reply "hi" with
    id 9, as they are on the wire. *)
Definition frame7 : list Z := [10; 0; 0; 0; 7; 0; 0; 0; 0; 0; 0; 0; 0; 0].



(** A size field that comes in two halves. *)
Definition short_size : net.Socket :=
  net.mkSocket [net.Data [10; 0]; net.Data [0; 0]] false [] [].

(** A socket that takes three bytes, then the rest. *)
Definition slow_line : tx.Line := tx.mkLine [tx.Room 3; tx.Room 100] [].

(** A socket that takes three bytes, then fails. *)
Definition failing_line : tx.Line :=
  tx.mkLine [tx.Room 3; tx.Fail; tx.Room 100] [].

(** Four addresses: no socket for the first, the second refuses the
    connection, the third accepts it. *)
Definition hosts : conn.Stack :=
  conn.mkStack (0, true)
    (0, [conn.mkAddr (-1) 0; conn.mkAddr 4 (-1); conn.mkAddr 5 0;
         conn.mkAddr 6 0])
    0 [] (net.mkWinsock [] 0).

(** Two addresses, neither of them usable. *)
Definition dead_hosts : conn.Stack :=
  conn.mkStack (0, true) (0, [conn.mkAddr (-1) 0; conn.mkAddr 4 (-1)])
    0 [] (net.mkWinsock [] 0).


(** A clock read every 5 ms, and a socket readable at the third
    [select]. *)
Definition ticking : timing.Timed :=
  timing.mkTimed (net.mkSocket [] false [false; false; true] [])
                 [100; 105; 110; 115; 120].

(** The same clock, and a socket that never becomes readable. *)
Definition silent : timing.Timed :=
  timing.mkTimed (net.mkSocket [] false [] []) [100; 105; 110; 115; 120].




(** A connected process whose first [send_packet] fails. *)
Definition unsendable : driver.Process :=
  driver.mkProcess
    (rcon.mkWorld 1 [rcon.Frame (make 1 Type_.SERVERDATA_AUTH_RESPONSE "")]
                  [] [false] [] [])
    net.SOCKET_ERROR (Some 3).



(** Two script files that exist, one that exists and cannot be read. *)
Definition file_exists (name : string) : bool :=
  String.eqb name "a.txt" || String.eqb name "b.txt"
  || String.eqb name "locked.txt".

Definition PATH_resolve (name : string) : string := name ++ ".txt".

Definition file_read (name : string) : option (list string) :=
  if String.eqb name "a.txt" then Some ["# setup"; "say hi"]
  else if String.eqb name "b.txt" then Some ["stop"]
  else None.

Definition scripted : utils.Env :=
  utils.mkEnv ["list"] false [] ["a.txt"; "b.txt"]
              file_exists PATH_resolve file_read.

Definition locked : utils.Env :=
  utils.mkEnv ["list"] false [] ["a.txt"; "locked.txt"; "b.txt"]
              file_exists PATH_resolve file_read.

End cases.
(** * Theorems *)

(** ** Strings *)

Lemma append_nil_r (s : string) : s ++ "" = s.
Proof. induction s as [|c s IH]; simpl; [reflexivity | now rewrite IH]. Qed.

Lemma append_assoc (s t u : string) : (s ++ t) ++ u = s ++ (t ++ u).
Proof. induction s as [|c s IH]; simpl; [reflexivity | now rewrite IH]. Qed.

Lemma concat_app (l l' : list string) :
  fold_right String.append "" (l ++ l')
  = fold_right String.append "" l ++ fold_right String.append "" l'.
Proof.
  induction l as [|s l IH]; simpl; [reflexivity|].
  now rewrite IH, append_assoc.
Qed.

Lemma length_append (s t : string) :
  String.length (s ++ t) = (String.length s + String.length t)%nat.
Proof. induction s as [|c s IH]; simpl; [reflexivity | now rewrite IH]. Qed.

(** ** The id counter *)

Lemma wrap32_succ_neq (z : Z) : wrap32 (z + 1) <> z.
Proof.
  unfold wrap32. intros H.
  pose proof (Z.mod_pos_bound (z + 1 + 2 ^ 31) (2 ^ 32) ltac:(lia)) as B.
  pose proof (Z.div_mod (z + 1 + 2 ^ 31) (2 ^ 32) ltac:(lia)) as D.
  lia.
Qed.

(** ** The session *)

Section Session.

Import rcon.

(** Running the operations of the session on a state given field by
    field. *)
Ltac reduce_session :=
  cbn -[command_loop wrap32 Z.add repeat List.length].

Ltac run_session :=
  unfold command, authenticate, bind, ID_Manager_get, send_packet,
    recv_packet, print, ret;
  unfold with_ID, with_send, with_inbound, with_cout;
  reduce_session.

(** [net::flush] touches neither the output nor the packets sent. *)
Lemma flush_loop_frame sel : forall w w',
  flush_loop sel w = Ret tt w' ->
  cout w' = cout w /\ sent w' = sent w /\ sendable w' = sendable w.
Proof.
  induction sel as [|b sel IH]; intros w w'; simpl.
  - destruct (inbound w) as [|[p|] l]; try discriminate.
    intros [= <-]. now simpl.
  - destruct (inbound w) as [|[p|] l]; try discriminate.
    destruct b.
    + intros H. apply IH in H. simpl in H. exact H.
    + intros [= <-]. now simpl.
Qed.

Lemma flush_frame w w' :
  flush w = Ret tt w' ->
  cout w' = cout w /\ sent w' = sent w /\ sendable w' = sendable w.
Proof.
  unfold flush, bind, select. simpl.
  destruct (hd false (readable w)); simpl.
  - intros H. apply flush_loop_frame in H. simpl in H. exact H.
  - unfold ret. intros [= <-]. now simpl.
Qed.

Lemma last_cons {A} (x y : A) (l : list A) : last (x :: l) y = last l x.
Proof.
  revert x y. induction l as [|z l IH]; intros x y; [reflexivity|].
  change (last (x :: z :: l) y) with (last (z :: l) y).
  now rewrite !IH.
Qed.

(** One round of the loop. *)
Lemma command_loop_round terminator_pid sel i wait_for_term p w :
  command_loop terminator_pid (true :: sel) i wait_for_term p w
  = (sent_term <- (if Nat.eqb i 0
                   then send_packet (TERM terminator_pid) else ret false) ;;
     let wait_for_term := sent_term || wait_for_term in
     if wait_for_term && (id p =? terminator_pid) then
       flush ;; ret (p, wait_for_term)
     else
       print (OutBody p) ;;
       p' <- recv_packet ;;
       command_loop terminator_pid sel (S i) wait_for_term p')
      (with_readable sel w).
Proof. reflexivity. Qed.

Lemma command_loop_timeout terminator_pid sel i wait_for_term p w :
  hd false sel = false ->
  command_loop terminator_pid sel i wait_for_term p w
  = Ret (p, wait_for_term) (with_readable (tl sel) w).
Proof. destruct sel as [|[] sel]; [reflexivity | discriminate | reflexivity]. Qed.

(** The sentinel is sent in the first round only. *)
Lemma sentinel_step terminator_pid i w :
  (if Nat.eqb i 0 then send_packet (TERM terminator_pid) else ret false) w
  = Ret (Nat.eqb i 0 && hd true (sendable w))
        (if Nat.eqb i 0
         then with_send (tl (sendable w)) (TERM terminator_pid) w else w).
Proof. destruct (Nat.eqb i 0); reflexivity. Qed.

(** What a run of the loop that comes to its end has done: it has received
    the frames [rs], written the body of every frame it held except the
    last one, sent the sentinel at most once, in its first round, and every
    body written while it waited for the sentinel has another id. *)
Lemma command_loop_Ret terminator_pid sel : forall i wait_for_term p w r w',
  command_loop terminator_pid sel i wait_for_term p w = Ret r w' ->
  let first := Nat.eqb i 0 && hd false sel in
  sent w' = (sent w ++ (if first then [TERM terminator_pid] else []))%list /\
  snd r = (first && hd true (sendable w)) || wait_for_term /\
  exists rs rest,
    inbound w = (map Frame rs ++ rest)%list /\
    fst r = last rs p /\
    cout w' = (cout w ++ map OutBody (removelast (p :: rs)))%list /\
    (snd r = true ->
     Forall (fun f => id f <> terminator_pid) (removelast (p :: rs))).
Proof.
  induction sel as [|[] sel IH]; intros i wait_for_term p w r w'.
  1, 3: rewrite command_loop_timeout by reflexivity; intros [= <- <-];
    cbn; rewrite andb_false_r, app_nil_r; repeat split;
    exists [], (inbound w); cbn; rewrite app_nil_r; auto.
  rewrite command_loop_round. cbn [hd]. rewrite andb_true_r.
  unfold bind at 1. rewrite sentinel_step.
  set (w1 := if Nat.eqb i 0 then _ else _).
  set (wt := _ || wait_for_term).
  assert (Hw1 : inbound w1 = inbound w /\ cout w1 = cout w /\
                sent w1 = (sent w ++ (if Nat.eqb i 0
                                      then [TERM terminator_pid] else []))%list).
  { subst w1. destruct (Nat.eqb i 0); cbn; rewrite ?app_nil_r; auto. }
  destruct Hw1 as (Hi1 & Hc1 & Hs1).
  cbn zeta. destruct (wt && (id p =? terminator_pid)) eqn:Eb.
  - (* the sentinel's echo: flush and leave *)
    unfold bind. destruct (flush w1) as [[] w2| |] eqn:Ef; try discriminate.
    unfold ret. intros [= <- <-].
    apply flush_frame in Ef. destruct Ef as (Hc & Hs & _).
    cbn [fst snd]. rewrite Hs, Hc, Hs1, Hc1. repeat split.
    exists [], (inbound w). cbn. rewrite app_nil_r. auto.
  - (* any other packet: write its body and receive the next one *)
    unfold bind, print, recv_packet. cbn [inbound with_cout]. rewrite Hi1.
    destruct (inbound w) as [|[p'|] l] eqn:Ein; try discriminate.
    intros H. apply IH in H. cbn zeta in H.
    cbn [Nat.eqb andb orb sent cout inbound sendable with_inbound with_cout]
      in H.
    destruct H as (Hs & Hw & rs & rest & Hin & Hl & Hc & Hf).
    rewrite app_nil_r, Hs1 in Hs. rewrite Hc1 in Hc.
    repeat split; [exact Hs | exact Hw |].
    exists (p' :: rs), rest. repeat split.
    + cbn. now rewrite Hin.
    + rewrite Hl. symmetry. apply last_cons.
    + rewrite Hc, <- app_assoc. reflexivity.
    + intros Hr. change (removelast (p :: p' :: rs))
        with (p :: removelast (p' :: rs)).
      constructor; [|auto].
      rewrite Hw in Hr. rewrite Hr in Eb. apply Z.eqb_neq. exact Eb.
Qed.

(** What a run of [rcon::command] that returns has done. *)
Lemma command_Ret command_ w b w' :
  command command_ w = Ret b w' ->
  let pid := ID_Manager w in
  let terminator_pid := wrap32 (pid + 1) in
  (hd true (sendable w) = false /\ b = false /\ cout w' = cout w /\
   sent w' = (sent w ++ [EXEC pid command_])%list)
  \/
  (hd true (sendable w) = true /\
   exists r0 rs rest wait_for_term,
     inbound w = (map Frame (r0 :: rs) ++ rest)%list /\
     cout w' = (cout w ++ OutPacket r0
                  :: map OutBody (removelast (r0 :: rs)) ++ [OutEndl])%list /\
     sent w' = (sent w ++ EXEC pid command_
                  :: (if hd false (readable w)
                      then [TERM terminator_pid] else []))%list /\
     wait_for_term = hd false (readable w) && hd true (tl (sendable w)) /\
     b = (id (last rs r0) =? terminator_pid) || negb wait_for_term /\
     (wait_for_term = true ->
      Forall (fun f => id f <> terminator_pid) (removelast (r0 :: rs)))).
Proof.
  destruct w as [idm inb rd sd st co].
  run_session.
  destruct (hd true sd) eqn:Eok; reduce_session.
  - destruct inb as [|[r0|] l]; try discriminate.
    reduce_session.
    match goal with
    | |- context [command_loop ?t ?s ?i ?wt ?p ?w0] =>
        destruct (command_loop t s i wt p w0) as [r w1| |] eqn:El;
          try discriminate
    end.
    intros [= <- <-].
    apply command_loop_Ret in El. cbn zeta in El.
    cbn [Nat.eqb andb orb sent cout inbound sendable] in El.
    destruct El as (Hs & Hw & rs & rest & Hin & Hl & Hc & Hf).
    right. split; [reflexivity|].
    exists r0, rs, rest, (snd r). cbn [cout sent].
    repeat split.
    + simpl. now rewrite Hin.
    + rewrite Hc, <- !app_assoc. reflexivity.
    + rewrite Hs, <- app_assoc. reflexivity.
    + rewrite Hw. now rewrite orb_false_r.
    + now rewrite Hl.
    + exact Hf.
  - intros [= <- <-]. left. now cbn.
Qed.

(** A reply delivered without a pause, after the first round: while the
    frames [l] are still to be read [select] answers 1.  The loop writes the
    body of every packet it holds except the last one. *)
Lemma command_loop_prompt terminator_pid rest sel l :
  forall p i w,
    inbound w = (map Frame l ++ rest)%list ->
    Forall (fun f => id f <> terminator_pid) (removelast (p :: l)) ->
    hd false sel = false ->
    exists w',
      command_loop terminator_pid (repeat true (List.length l) ++ sel)
                   (S i) true p w
      = Ret (last l p, true) w' /\
      cout w' = (cout w ++ map OutBody (removelast (p :: l)))%list /\
      inbound w' = rest /\ sent w' = sent w.
Proof.
  induction l as [|q l IH]; intros p i w Hin Hid Hsel.
  - cbn [List.length repeat app]. rewrite command_loop_timeout by assumption.
    eexists. split; [reflexivity|]. cbn. rewrite app_nil_r. auto.
  - change (removelast (p :: q :: l)) with (p :: removelast (q :: l)) in *.
    inversion Hid as [|? ? Hp Hl]; subst.
    apply Z.eqb_neq in Hp.
    cbn [List.length repeat app]. rewrite command_loop_round.
    destruct w as [idm inb rd sd st co]. cbn [inbound] in Hin. subst inb.
    unfold bind, ret, print, recv_packet, with_readable, with_cout,
      with_inbound.
    cbn [Nat.eqb orb andb inbound readable sendable sent cout ID_Manager
         map app].
    rewrite Hp. cbn [inbound readable sendable sent cout ID_Manager].
    match goal with
    | |- context [command_loop _ _ _ _ _ ?w0] =>
        destruct (IH q (S i) w0) as (w' & E & Hc & Hr & Hs); auto
    end.
    exists w'. rewrite E, last_cons. split; [reflexivity|].
    rewrite Hc, Hr, Hs. cbn [cout sent map]. rewrite <- app_assoc. auto.
Qed.

(** The same from the first round on, in which the sentinel is sent. *)
Lemma command_loop_prompt_first terminator_pid rest sel q l p w :
  hd true (sendable w) = true ->
  inbound w = (map Frame (q :: l) ++ rest)%list ->
  Forall (fun f => id f <> terminator_pid) (removelast (p :: q :: l)) ->
  hd false sel = false ->
  exists w',
    command_loop terminator_pid
                 (repeat true (List.length (q :: l)) ++ sel) 0 false p w
    = Ret (last l q, true) w' /\
    cout w' = (cout w ++ map OutBody (removelast (p :: q :: l)))%list /\
    inbound w' = rest /\
    sent w' = (sent w ++ [TERM terminator_pid])%list.
Proof.
  intros Hok Hin Hid Hsel.
  change (removelast (p :: q :: l)) with (p :: removelast (q :: l)) in *.
  inversion Hid as [|? ? Hp Hl]; subst.
  apply Z.eqb_neq in Hp.
  cbn [List.length repeat app]. rewrite command_loop_round.
  destruct w as [idm inb rd sd st co]. cbn [inbound sendable] in *. subst inb.
  unfold bind, ret, print, send_packet, recv_packet, with_readable, with_cout,
    with_inbound, with_send.
  cbn [Nat.eqb inbound readable sendable sent cout ID_Manager map app].
  rewrite Hok. cbn [orb andb]. rewrite Hp.
  cbn [inbound readable sendable sent cout ID_Manager].
  match goal with
  | |- context [command_loop _ _ _ _ _ ?w0] =>
      destruct (command_loop_prompt terminator_pid rest sel l q 0%nat w0)
        as (w' & E & Hc & Hr & Hs); auto
  end.
  exists w'. rewrite E. split; [reflexivity|].
  rewrite Hc, Hr, Hs. cbn [cout sent map]. rewrite <- app_assoc. auto.
Qed.

Lemma render_bodies (l : list Packet) :
  map render (map OutBody l) = map body l.
Proof. now rewrite map_map. Qed.

(** C1, as the code has it.  When the server emits the frames [f :: fs]
    with the command's id and then the echo of the sentinel, and each of
    them is readable when the client asks, [rcon::command] succeeds and its
    output is the body of the first frame followed by the concatenation of
    the bodies of all the frames and a newline: the first frame is written
    once before the loop and once more by the first round of the loop. *)
Theorem command_repeats_first_body command_ w f fs echo rest sel :
  hd true (sendable w) = true ->
  hd true (tl (sendable w)) = true ->
  inbound w = (map Frame (f :: fs ++ [echo]) ++ rest)%list ->
  readable w = (repeat true (S (List.length fs)) ++ sel)%list ->
  hd false sel = false ->
  Forall (fun x => id x = ID_Manager w) (f :: fs) ->
  id echo = wrap32 (ID_Manager w + 1) ->
  exists w',
    command command_ w = Ret true w' /\
    cout w' = (cout w ++ OutPacket f :: map OutBody (f :: fs) ++ [OutEndl])%list /\
    stdout w' = stdout w ++ body f
                  ++ fold_right String.append "" (map body (f :: fs))
                  ++ render OutEndl.
Proof.
  intros Hok Hok2 Hin Hrd Hsel Hid He.
  destruct w as [idm inb rd sd st co].
  cbn [inbound readable sendable ID_Manager] in *. subst inb rd.
  assert (Hne : Forall (fun x => id x <> wrap32 (idm + 1)) (f :: fs)).
  { eapply Forall_impl; [|exact Hid]. cbn beta. intros x ->.
    intros E. symmetry in E. revert E. apply wrap32_succ_neq. }
  destruct (fs ++ [echo])%list as [|q l] eqn:E.
  { destruct fs; discriminate. }
  assert (Hlen : S (List.length fs) = List.length (q :: l)).
  { rewrite <- E, length_app. cbn. lia. }
  assert (Hrl : removelast (f :: q :: l) = f :: fs).
  { change (removelast (f :: q :: l)) with (f :: removelast (q :: l)).
    now rewrite <- E, removelast_last. }
  assert (Hl : last l q = echo).
  { rewrite <- (last_cons q f l), <- E. apply last_last. }
  run_session. rewrite Hok. reduce_session.
  rewrite Hlen.
  match goal with
  | |- context [command_loop ?t _ _ _ _ ?w0] =>
      destruct (command_loop_prompt_first t rest sel q l f w0)
        as (w' & El & Hc & Hr & Hs); auto
  end.
  { rewrite Hrl. exact Hne. }
  rewrite El. cbn [fst snd negb]. rewrite Hl, He, Z.eqb_refl. cbn [orb].
  eexists. split; [reflexivity|].
  assert (Hout : cout (with_cout OutEndl w')
                 = (co ++ OutPacket f :: map OutBody (f :: fs) ++ [OutEndl])%list).
  { cbn [cout with_cout]. rewrite Hc. cbn [cout]. rewrite Hrl.
    now rewrite <- !app_assoc. }
  split; [exact Hout|].
  unfold stdout. cbn [cout with_cout] in *. rewrite Hout.
  rewrite map_app, concat_app. cbn [map fold_right render show].
  change (OutBody f :: map OutBody fs) with (map OutBody (f :: fs)).
  rewrite map_app, concat_app, render_bodies. cbn [map fold_right render].
  now rewrite !append_nil_r.
Qed.

(** S2 is such a reply: the output is ["AAAAAABBBCCC"] and a newline. *)
Lemma command_repeats_first_body_s2 :
  exists w',
    command "status" scenario.s2 = Ret true w' /\
    cout w'
    = [OutPacket (make 2 Type_.SERVERDATA_RESPONSE_VALUE "AAA");
       OutBody (make 2 Type_.SERVERDATA_RESPONSE_VALUE "AAA");
       OutBody (make 2 Type_.SERVERDATA_RESPONSE_VALUE "BBB");
       OutBody (make 2 Type_.SERVERDATA_RESPONSE_VALUE "CCC");
       OutEndl] /\
    stdout w' = "AAAAAABBBCCC" ++ render OutEndl.
Proof.
  apply (command_repeats_first_body "status" scenario.s2
           (make 2 Type_.SERVERDATA_RESPONSE_VALUE "AAA")
           [make 2 Type_.SERVERDATA_RESPONSE_VALUE "BBB";
            make 2 Type_.SERVERDATA_RESPONSE_VALUE "CCC"]
           (make 3 Type_.SERVERDATA_RESPONSE_VALUE "") [] [false]);
    try reflexivity.
  repeat constructor.
Defined.

(** The same run measured against the spec's sentence: the output of S2 is
    not the concatenation of the three bodies. *)
Lemma s2_not_reassembled :
  ~ scenario.reassembles "status" scenario.s2
      [make 2 Type_.SERVERDATA_RESPONSE_VALUE "AAA";
       make 2 Type_.SERVERDATA_RESPONSE_VALUE "BBB";
       make 2 Type_.SERVERDATA_RESPONSE_VALUE "CCC"].
Proof.
  intros (b & w' & E & H). vm_compute in E.
  injection E as <- <-. vm_compute in H. discriminate H.
Qed.

(** The outcome on S2 does not depend on how [operator<<] writes a packet:
    whatever it writes for the first frame, the output is wrong either for
    S2 or for the reply made of that frame alone. *)
Lemma first_body_repeated_whatever_show (show_ : Packet -> string) w1 w2 :
  command "status" scenario.s2 = Ret true w1 ->
  command "status" scenario.s2_first_only = Ret true w2 ->
  ~ (stdout_with show_ w1 = "AAABBBCCC" ++ render OutEndl /\
     stdout_with show_ w2 = "AAA" ++ render OutEndl).
Proof.
  intros E1 E2 [H1 H2].
  vm_compute in E1. injection E1 as <-.
  vm_compute in E2. injection E2 as <-.
  unfold stdout_with in H1, H2. cbn in H1, H2.
  match type of H2 with
  | show_ ?p ++ _ = _ => destruct (show_ p) as [|c s]
  end.
  - discriminate H2.
  - apply (f_equal String.length) in H1.
    cbn [append String.length] in H1.
    rewrite length_append in H1. cbn in H1. lia.
Qed.

(** C10.  When the command packet was sent, a first frame [p] is received
    and [select] then reports nothing readable, [rcon::command] returns
    true: the sentinel has not been sent, no round of the loop has run, no
    further frame has been read, and the output is that one frame and a
    newline.  The id of [p] plays no part. *)
Theorem command_succeeds_without_sentinel command_ w p rest :
  hd true (sendable w) = true ->
  inbound w = Frame p :: rest ->
  hd false (readable w) = false ->
  exists w',
    command command_ w = Ret true w' /\
    sent w' = (sent w ++ [EXEC (ID_Manager w) command_])%list /\
    cout w' = (cout w ++ [OutPacket p; OutEndl])%list /\
    inbound w' = rest.
Proof.
  intros Hok Hin Hsel.
  destruct w as [idm inb rd sd st co].
  cbn [inbound readable sendable sent cout ID_Manager] in *. subst inb.
  run_session. rewrite Hok. reduce_session.
  rewrite command_loop_timeout by assumption.
  cbn [fst snd negb]. rewrite orb_true_r.
  eexists. split; [reflexivity|].
  cbn [sent cout inbound with_readable]. rewrite <- app_assoc. auto.
Qed.

Lemma command_succeeds_without_sentinel_lonely :
  exists w',
    command "status" scenario.lonely = Ret true w' /\
    sent w' = [EXEC 2 "status"] /\
    cout w' = [OutPacket (make 2 Type_.SERVERDATA_RESPONSE_VALUE "ok"); OutEndl] /\
    inbound w' = [].
Proof.
  apply (command_succeeds_without_sentinel "status" scenario.lonely
           (make 2 Type_.SERVERDATA_RESPONSE_VALUE "ok") []);
    reflexivity.
Defined.

(** When the server has nothing to say about the command, the first
    [recv_packet] never returns: the sentinel is sent only after a first
    frame has been received. *)
Lemma command_blocks_without_reply command_ w :
  hd true (sendable w) = true ->
  inbound w = [] ->
  exists w',
    command command_ w = Block w' /\
    sent w' = (sent w ++ [EXEC (ID_Manager w) command_])%list.
Proof.
  intros Hok Hin. destruct w as [idm inb rd sd st co].
  cbn [inbound sendable sent ID_Manager] in *. subst inb.
  run_session. rewrite Hok. reduce_session. eexists. split; reflexivity.
Qed.

(** C4 as stated fails: in the run of [scenario.foreign], which succeeds,
    the frame with id 99 is written to the output. *)
Lemma foreign_frame_emitted :
  ~ scenario.id_correlated "status" scenario.foreign.
Proof.
  unfold scenario.id_correlated. intros H.
  eassert (E : command "status" scenario.foreign = Ret true _)
    by (vm_compute; reflexivity).
  specialize (H _ E). vm_compute in H.
  rewrite Forall_forall in H.
  specialize (H (make 99 Type_.SERVERDATA_RESPONSE_VALUE "X")).
  vm_compute in H. discriminate H. auto.
Qed.

Lemma emitted_from_app (w w' : World) (l : list out_item) :
  cout w' = (cout w ++ l)%list ->
  scenario.emitted_from (List.length (cout w)) w'
  = flat_map (fun o => match o with
                       | OutPacket p | OutBody p => [p]
                       | OutEndl => []
                       end) l.
Proof.
  unfold scenario.emitted_from. intros ->.
  rewrite skipn_app, Nat.sub_diag, skipn_all. reflexivity.
Qed.

Lemma emitted_bodies (l : list Packet) :
  flat_map (fun o => match o with
                     | OutPacket p | OutBody p => [p]
                     | OutEndl => []
                     end) (map OutBody l) = l.
Proof. induction l as [|p l IH]; cbn; [reflexivity | now rewrite IH]. Qed.

(** C4, amended.  In a successful run of [rcon::command] in which data is
    readable after the first frame and the sentinel is sent, the frames
    received are [r0 :: rs]: the last of them has the sentinel's id and no
    earlier one has; the frames written to the output are the first one and
    every one but the last, whatever their id. *)
Theorem command_emits_all_but_last command_ w w' :
  command command_ w = Ret true w' ->
  hd false (readable w) = true ->
  hd true (tl (sendable w)) = true ->
  let terminator_pid := wrap32 (ID_Manager w + 1) in
  exists r0 rs rest,
    inbound w = (map Frame (r0 :: rs) ++ rest)%list /\
    (forall p, In p (scenario.emitted_from (List.length (cout w)) w')
               <-> p = r0 \/ In p (removelast (r0 :: rs))) /\
    id (last rs r0) = terminator_pid /\
    Forall (fun f => id f <> terminator_pid) (removelast (r0 :: rs)).
Proof.
  intros E Hsel Hok2 terminator_pid.
  apply command_Ret in E. cbn zeta in E.
  destruct E as [(_ & Hb & _) | (Hok & r0 & rs & rest & wt & Hin & Hc & Hs
                                  & Hw & Hb & Hf)]; [discriminate|].
  rewrite Hsel, Hok2 in Hw. cbn in Hw. subst wt.
  cbn [negb] in Hb. rewrite orb_false_r in Hb. symmetry in Hb.
  apply Z.eqb_eq in Hb.
  exists r0, rs, rest. repeat split; auto.
  - rewrite (emitted_from_app w w' _ Hc).
    cbn [flat_map app]. rewrite flat_map_app, emitted_bodies.
    cbn [flat_map]. rewrite app_nil_r. cbn [In]. intuition.
  - rewrite (emitted_from_app w w' _ Hc).
    cbn [flat_map app]. rewrite flat_map_app, emitted_bodies.
    cbn [flat_map]. rewrite app_nil_r. cbn [In]. intuition.
Qed.

Lemma command_emits_all_but_last_foreign :
  exists w' r0 rs rest,
    command "status" scenario.foreign = Ret true w' /\
    inbound scenario.foreign = (map Frame (r0 :: rs) ++ rest)%list /\
    (forall p, In p (scenario.emitted_from 0 w')
               <-> p = r0 \/ In p (removelast (r0 :: rs))) /\
    id (last rs r0) = 3 /\
    Forall (fun f => id f <> 3) (removelast (r0 :: rs)).
Proof.
  eassert (E : command "status" scenario.foreign = Ret true _)
    by (vm_compute; reflexivity).
  destruct (command_emits_all_but_last "status" scenario.foreign _ E
              eq_refl eq_refl) as (r0 & rs & rest & H).
  eexists _, r0, rs, rest. split; [exact E | exact H].
Defined.

(** C2 as stated fails: on S5 authentication succeeds, but on the empty
    ResponseValue itself; the AuthResponse is still unread. *)
Lemma leading_empty_not_discarded :
  ~ scenario.leading_empty_discarded "secret" scenario.s5.
Proof.
  intros (w' & E & H). vm_compute in E. injection E as <-. discriminate H.
Qed.

(** What [rcon::authenticate] does with the first frame it receives. *)
Lemma authenticate_frame passwd w p rest :
  hd true (sendable w) = true ->
  inbound w = Frame p :: rest ->
  exists w',
    authenticate passwd w = Ret (id p =? ID_Manager w) w' /\
    inbound w' = rest /\
    sent w' = (sent w ++ [make (ID_Manager w) Type_.SERVERDATA_AUTH passwd])%list.
Proof.
  intros Hok Hin. destruct w as [idm inb rd sd st co].
  cbn [inbound sendable sent ID_Manager] in *. subst inb.
  run_session. rewrite Hok. reduce_session. eexists. repeat split.
Qed.

(** C2, amended.  [rcon::authenticate] receives exactly one frame after
    the Auth request and discards none: whatever the type and the body of
    the first frame received, an empty ResponseValue included, the result
    is whether its id is the id of the request, and every later frame is
    left unread. *)
Theorem authenticate_reads_one_frame passwd w p rest :
  hd true (sendable w) = true ->
  inbound w = Frame p :: rest ->
  exists w',
    authenticate passwd w = Ret (id p =? ID_Manager w) w' /\
    inbound w' = rest.
Proof.
  intros Hok Hin.
  destruct (authenticate_frame passwd w p rest Hok Hin) as (w' & E & Hr & _).
  now exists w'.
Qed.

Lemma authenticate_reads_one_frame_s5 :
  exists w',
    authenticate "secret" scenario.s5 = Ret true w' /\
    inbound w' = [Frame (make 1 Type_.SERVERDATA_AUTH_RESPONSE "")].
Proof.
  apply (authenticate_reads_one_frame "secret" scenario.s5
           (make 1 Type_.SERVERDATA_RESPONSE_VALUE "")
           [Frame (make 1 Type_.SERVERDATA_AUTH_RESPONSE "")]);
    reflexivity.
Defined.

End Session.

(** ** The driver *)

Section Driver.

Import driver.

Variable mode_commandline : list string -> IO unit.
Variable mode_interactive : Z -> IO unit.

(** C3.  Once the Auth request is sent and a frame [p] comes back,
    [rcon::authenticate] succeeds exactly when the id of [p] is the id
    allocated for the request, whatever the password.  When it is another id
    (-1 for a rejected password), [main] throws [badpass_exception] and
    returns 1; the Auth request is the only packet the process has sent,
    whatever the commands and the two modes are. *)
Theorem auth_rejected_exits Global commands w sd p rest :
  connect_answer w = Some sd ->
  sd <> net.SOCKET_ERROR ->
  allowBlankPassword Global = true \/ utils.empty (password Global) = false ->
  hd true (rcon.sendable (session w)) = true ->
  rcon.inbound (session w) = rcon.Frame p :: rest ->
  let pid := rcon.ID_Manager (session w) in
  (exists b s',
      rcon.authenticate (password Global) (session w) = Ret b s' /\
      (b = true <-> id p = pid)) /\
  (id p <> pid ->
   exists w',
     main_body mode_commandline mode_interactive Global commands w
       = Throw badpass_exception w' /\
     main mode_commandline mode_interactive Global commands w = Ret 1 w' /\
     rcon.sent (session w')
       = (rcon.sent (session w)
            ++ [make pid Type_.SERVERDATA_AUTH (password Global)])%list /\
     rcon.inbound (session w') = rest).
Proof.
  intros Hc Hsd Hpw Hok Hin pid.
  destruct (authenticate_frame (password Global) (session w) p rest
              Hok Hin) as (s' & Ea & Hr & Hs).
  split.
  - exists (id p =? pid), s'. split; [exact Ea|]. apply Z.eqb_eq.
  - intros Hne. apply Z.eqb_neq in Hne.
    unfold main, main_body, bind, connect, lift, throw.
    rewrite Hc. cbn [Global_socket session connect_answer].
    apply Z.eqb_neq in Hsd. rewrite Hsd. cbn [negb].
    assert (Hg : negb (allowBlankPassword Global)
                 && utils.empty (password Global) = false).
    { destruct Hpw as [-> | ->]; [reflexivity | apply andb_false_r]. }
    rewrite Hg. cbn [session Global_socket connect_answer].
    rewrite Ea. fold pid. rewrite Hne.
    eexists. repeat split; cbn [session]; assumption.
Qed.

(** C9.  With a blank password and [allowBlankPassword] false, [main]
    connects the socket, then throws and returns 1: nothing has been sent
    and nothing has been read. *)
Theorem blank_password_refused Global commands w sd :
  connect_answer w = Some sd ->
  sd <> net.SOCKET_ERROR ->
  allowBlankPassword Global = false ->
  password Global = "" ->
  let w' := mkProcess (session w) sd (connect_answer w) in
  main_body mode_commandline mode_interactive Global commands w
    = Throw (make_exception "Password cannot be blank!") w' /\
  main mode_commandline mode_interactive Global commands w = Ret 1 w'.
Proof.
  intros Hc Hsd Hallow Hpw w'. subst w'.
  unfold main, main_body, bind, connect, throw.
  rewrite Hc. cbn [Global_socket].
  apply Z.eqb_neq in Hsd. rewrite Hsd, Hallow, Hpw. cbn. auto.
Qed.

End Driver.

(** ** The frame receiver *)

Section Receiver.

Import net.

(** A chunk that fits the request is delivered whole. *)
Lemma recv_chunk len c l s :
  pending s = Data c :: l ->
  Z.of_nat (List.length c) <= len ->
  recv len s = Ret (Z.of_nat (List.length c), c) (with_pending l s).
Proof.
  unfold recv. intros -> H.
  rewrite firstn_all2, skipn_all2 by lia. reflexivity.
Qed.

(** Once the peer has closed, every read returns 0. *)
Lemma recv_closed len s :
  pending s = [] -> closed s = true -> recv len s = Ret (0, []) s.
Proof. unfold recv. now intros -> ->. Qed.

(** After a read of the size field that returned 4 bytes, [validate] only
    logs. *)
Lemma validate_quiet psize s :
  quiet psize s ->
  exists s',
    validate psize 4 s = Ret tt s' /\
    pending s' = pending s /\ closed s' = closed s /\ quiet psize s' /\
    cerr s' = (cerr s ++ (if psize <? PSIZE_MIN then [SmallSize psize]
                          else if psize >? PSIZE_MAX then [LargeSize psize]
                          else []))%list.
Proof.
  intros Hq. unfold validate, bind at 1, ret. cbn [Z.eqb Pos.eqb].
  destruct (psize <? PSIZE_MIN) eqn:Emin.
  - eexists. split; [reflexivity|]. cbn. repeat split. exact Hq.
  - destruct (psize >? PSIZE_MAX) eqn:Emax.
    + destruct Hq as [Hq | Hq].
      { rewrite Z.gtb_ltb in Emax. apply Z.ltb_lt in Emax. lia. }
      unfold bind, log, flush, select, with_cerr, with_readable.
      cbn [readable pending closed cerr].
      assert (Hhd : hd false (readable s) = false).
      { destruct Hq; [reflexivity | assumption]. }
      unfold bind. cbn [readable pending closed cerr].
      rewrite Hhd. cbn [negb]. unfold ret.
      eexists. split; [reflexivity|]. cbn. repeat split.
      right. destruct Hq; [constructor | assumption].
    + exists s. rewrite app_nil_r. repeat split. exact Hq.
Qed.




(** The read of the size field. *)
Lemma recv_size hdr l s :
  pending s = Data hdr :: l ->
  List.length hdr = 4%nat ->
  recv 4 s = Ret (4, hdr) (with_pending l s).
Proof.
  intros Hp Hlen. rewrite (recv_chunk 4 hdr l s Hp) by lia.
  now rewrite Hlen.
Qed.




(** A read of 0 bytes for the size field throws "Connection Lost!". *)
Lemma recv_packet_size_zero_read fuel s :
  pending s = [] -> closed s = true ->
  recv_packet fuel s
  = Some (Throw (socket_exception "net::recv_packet()" "Connection Lost!") s).
Proof.
  intros Hp Hc. unfold recv_packet, bind at 1.
  rewrite (recv_closed 4 s Hp Hc). reflexivity.
Qed.

(** When the peer closes before the declared bytes have all arrived, the
    payload loop keeps reading 0 bytes: [validate] sees the 4 of the first
    read and lets every round pass. *)
Lemma recv_payload_spins psize : forall fuel chunks received buf s,
  pending s = map Data chunks ->
  closed s = true ->
  psize <= PSIZE_MAX ->
  received + Z.of_nat (List.length (List.concat chunks)) < psize ->
  recv_payload fuel psize 4 received buf s = None.
Proof.
  induction fuel as [|fuel IH]; intros chunks received buf s Hp Hc Hmax Hlen.
  - cbn [recv_payload].
    replace (received <? psize) with true by (symmetry; apply Z.ltb_lt; lia).
    reflexivity.
  - cbn [recv_payload].
    replace (received <? psize) with true by (symmetry; apply Z.ltb_lt; lia).
    unfold bind at 1.
    destruct chunks as [|c chunks].
    + rewrite (recv_closed _ s Hp Hc).
      destruct (validate_quiet psize s) as (s1 & Ev & Hp1 & Hc1 & _);
        [now left|].
      unfold bind, ret. rewrite Ev.
      apply (IH []);
        [rewrite Hp1; exact Hp | rewrite Hc1; exact Hc | assumption
        | cbn in *; lia].
    + cbn [List.concat] in Hlen. rewrite length_app in Hlen.
      cbn [map] in Hp.
      rewrite (recv_chunk _ c (map Data chunks) s Hp) by lia.
      destruct (validate_quiet psize (with_pending (map Data chunks) s))
        as (s1 & Ev & Hp1 & Hc1 & _); [now left|].
      unfold bind, ret. rewrite Ev.
      apply (IH chunks);
        [rewrite Hp1; reflexivity | rewrite Hc1; exact Hc | assumption | lia].
Qed.

(** C6, as the code has it.  When the size field announces a size within
    the bound and the peer closes the connection before all the declared
    bytes have arrived, [recv_packet] neither throws nor returns: after any
    number of rounds the payload loop is still running. *)
Theorem payload_zero_read_spins fuel hdr chunks s :
  pending s = Data hdr :: map Data chunks ->
  closed s = true ->
  List.length hdr = 4%nat ->
  le_int hdr <= PSIZE_MAX ->
  Z.of_nat (List.length (List.concat chunks)) < le_int hdr ->
  recv_packet fuel s = None.
Proof.
  intros Hp Hc Hhdr Hmax Hlen.
  unfold recv_packet, bind at 1.
  rewrite (recv_size hdr _ s Hp Hhdr). cbn [fst snd].
  destruct (validate_quiet (le_int hdr) (with_pending (map Data chunks) s))
    as (s1 & Ev & Hp1 & Hc1 & _); [now left|].
  unfold bind, ret. rewrite Ev.
  rewrite (recv_payload_spins (le_int hdr) fuel chunks 0 [] s1);
    [reflexivity | rewrite Hp1; reflexivity | rewrite Hc1; exact Hc
    | assumption | lia].
Qed.

(** The earlier receiver does surface that zero-byte read: on the same
    socket it throws "Connection Lost!". *)
Lemma earlier_receiver_throws default_Packet fuel :
  exists e s',
    net0.recv_packet default_Packet (S fuel) scenario.truncated
    = Some (Throw e s').
Proof. eexists _, _. reflexivity. Qed.

Lemma payload_zero_read_spins_truncated :
  recv_packet 1000 scenario.truncated = None.
Proof.
  apply (payload_zero_read_spins 1000 [14; 0; 0; 0] [] scenario.truncated);
    try reflexivity.
  vm_compute. discriminate.
Defined.

(** C8 as stated fails: where [_WIN32] is defined, two calls of
    [close_socket] call [WSACleanup] twice. *)
Lemma two_closes_tear_down_twice : ~ scenario.torn_down_once true 3.
Proof. unfold scenario.torn_down_once. cbn. lia. Qed.

(** C8, amended.  [close_socket] keeps no record of having run: [n] calls
    return and, where [_WIN32] is defined, have called [closesocket] and
    [WSACleanup] [n] times each; elsewhere they have done nothing. *)
Theorem close_socket_keeps_no_state (_WIN32 : bool) sd os n :
  let os' := Nat.iter n (close_socket _WIN32 sd) os in
  WSACleanup_calls os'
    = (WSACleanup_calls os + (if _WIN32 then n else 0))%nat /\
  closesocket_calls os'
    = (closesocket_calls os ++ (if _WIN32 then repeat sd n else []))%list.
Proof.
  cbn zeta. destruct _WIN32.
  - induction n as [|n [IH1 IH2]].
    + cbn. now rewrite Nat.add_0_r, app_nil_r.
    + rewrite Nat.iter_succ.
      set (o := Nat.iter n (close_socket true sd) os) in *.
      cbn [close_socket WSACleanup_calls closesocket_calls].
      rewrite IH1, IH2. split; [lia|].
      rewrite <- app_assoc. f_equal. symmetry. apply repeat_cons.
  - induction n as [|n [IH1 IH2]].
    + cbn. now rewrite Nat.add_0_r, app_nil_r.
    + rewrite Nat.iter_succ.
      set (o := Nat.iter n (close_socket false sd) os) in *.
      cbn [close_socket]. now rewrite IH1, IH2.
Qed.

(** [cleanup] leaves [Global.socket] as it is, so that running it again
    closes again. *)
Lemma cleanup_twice (_WIN32 : bool) sd os :
  sd <> SOCKET_ERROR ->
  cleanup _WIN32 sd (cleanup _WIN32 sd os)
  = close_socket _WIN32 sd (close_socket _WIN32 sd os).
Proof.
  intros H. unfold cleanup. apply Z.eqb_neq in H. now rewrite H.
Qed.

End Receiver.

(** ** The command list *)

Section Commands.

Import utils.


Lemma fold_push (script : list string) : forall acc,
  fold_left (fun commands command => (commands ++ [command])%list) script acc
  = (acc ++ script)%list.
Proof.
  induction script as [|c script IH]; intros acc; cbn [fold_left].
  - now rewrite app_nil_r.
  - now rewrite IH, <- app_assoc.
Qed.






End Commands.

(** ** The driver at work *)

Lemma auth_rejected_exits_rejecting :
  (exists b s',
      rcon.authenticate "wrong" (driver.session scenario.rejecting) = Ret b s' /\
      (b = true <-> -1 = 1)) /\
  (-1 <> 1 ->
   exists w',
     driver.main_body (fun _ => ret tt) (fun _ => ret tt)
       scenario.wrong_password ["status"] scenario.rejecting
       = Throw badpass_exception w' /\
     driver.main (fun _ => ret tt) (fun _ => ret tt)
       scenario.wrong_password ["status"] scenario.rejecting = Ret 1 w' /\
     rcon.sent (driver.session w')
       = [make 1 Type_.SERVERDATA_AUTH "wrong"] /\
     rcon.inbound (driver.session w') = []).
Proof.
  apply (auth_rejected_exits (fun _ => ret tt) (fun _ => ret tt)
           scenario.wrong_password ["status"] scenario.rejecting 3
           (make (-1) Type_.SERVERDATA_AUTH_RESPONSE "") []);
    try reflexivity.
  - discriminate.
  - right. reflexivity.
Defined.

Lemma blank_password_refused_rejecting :
  let w' := driver.mkProcess (driver.session scenario.rejecting) 3 (Some 3) in
  driver.main_body (fun _ => ret tt) (fun _ => ret tt)
    scenario.no_password ["status"] scenario.rejecting
    = Throw (make_exception "Password cannot be blank!") w' /\
  driver.main (fun _ => ret tt) (fun _ => ret tt)
    scenario.no_password ["status"] scenario.rejecting = Ret 1 w'.
Proof.
  apply (blank_password_refused (fun _ => ret tt) (fun _ => ret tt)
           scenario.no_password ["status"] scenario.rejecting 3);
    try reflexivity.
  discriminate.
Defined.

(** * Further properties of the code *)

(** ** Frames on a byte stream: [net::recv_packet] of [net/net.hpp] *)

Section Stream.

Import net.








(** X3.  A size field that arrives in two pieces is refused: when the
    first read brings fewer than its four bytes, [recv_packet] throws
    "Received a corrupted packet!", the bytes read being lost. *)
Theorem recv_packet_split_size fuel c l s :
  pending s = Data c :: l ->
  (0 < List.length c < 4)%nat ->
  recv_packet fuel s
  = Some (Throw (socket_exception "net::recv_packet()"
                                  "Received a corrupted packet!")
                (with_pending l s)).
Proof.
  intros Hp Hc. unfold recv_packet, bind at 1.
  rewrite (recv_chunk 4 c l s Hp) by lia.
  destruct c as [|a [|b [|d [|e c]]]]; cbn in Hc; try lia; reflexivity.
Qed.

End Stream.

(** ** Sending *)

Section Sending.

Import tx.

Lemma firstn_add {A} (a b : nat) (l : list A) :
  firstn (a + b) l = (firstn a l ++ firstn b (skipn a l))%list.
Proof.
  revert l. induction a as [|a IH]; intros l; [reflexivity|].
  destruct l as [|x l]; cbn; [now rewrite firstn_nil | now rewrite IH].
Qed.

(** The loop keeps [bytesleft = len - total] and has put on the wire the
    first [total] bytes of the packet. *)
Lemma send_loop_Ret spacket len : forall evs total ret_ out r s',
  0 <= total ->
  send_loop evs spacket len total (len - total) ret_ out = Ret r s' ->
  exists k : nat,
    wire s' = (out ++ firstn k (skipn (Z.to_nat total) spacket))%list /\
    (if r =? -1
     then total + Z.of_nat k < len \/ (len <= total /\ r = ret_ /\ k = 0%nat)
     else Z.of_nat k = Z.max 0 (len - total)).
Proof.
  induction evs as [|ev evs IH]; intros total ret_ out r s' Ht.
  - cbn [send_loop]. destruct (total <? len) eqn:E; [discriminate|].
    apply Z.ltb_ge in E. intros [= <- <-]. exists 0%nat. cbn.
    rewrite app_nil_r. split; [reflexivity|].
    destruct (ret_ =? -1); [right; repeat split |]; lia.
  - cbn [send_loop]. destruct (total <? len) eqn:E.
    2:{ apply Z.ltb_ge in E. intros [= <- <-]. exists 0%nat. cbn.
        rewrite app_nil_r. split; [reflexivity|].
        destruct (ret_ =? -1); [right; repeat split |]; lia. }
    apply Z.ltb_lt in E.
    destruct ev as [n|]; cbn [send].
    + set (x := Z.min (Z.of_nat n) (len - total)).
      assert (Hx : 0 <= x <= len - total) by (subst x; lia).
      destruct (x =? -1) eqn:Ex; [apply Z.eqb_eq in Ex; lia|].
      replace (len - total - x) with (len - (total + x)) by lia.
      intros H. apply IH in H; [|lia].
      destruct H as (k & Hw & Hk).
      exists (Z.to_nat x + k)%nat. split.
      * rewrite Hw, <- app_assoc. f_equal.
        rewrite firstn_add. f_equal. f_equal.
        rewrite skipn_skipn. f_equal. lia.
      * destruct (r =? -1) eqn:Er.
        -- apply Z.eqb_eq in Er.
           destruct Hk as [Hk | (Hk & Hr & Hk0)]; left; lia.
        -- lia.
    + cbn [Z.eqb]. intros [= <- <-]. exists 0%nat. cbn.
      rewrite app_nil_r. split; [reflexivity|]. left. lia.
Qed.

(** X4.  [send_packet] writes the packet in as many sends as it takes and
    resumes where the last one stopped: when it returns true the socket
    has taken exactly the first [size + 4] bytes of the serialized packet,
    in order; when it returns false it has taken fewer, or the length was
    not positive and nothing was sent. *)
Theorem send_packet_writes_all size spacket s b s' :
  send_packet size spacket s = Ret b s' ->
  let len := wrap32 (size + 4) in
  exists k : nat,
    wire s' = (wire s ++ firstn k spacket)%list /\
    (if b then Z.of_nat k = Z.max 0 len
     else Z.of_nat k < len \/ (len <= 0 /\ k = 0%nat)).
Proof.
  unfold send_packet. intros H. cbn zeta in *.
  set (len := wrap32 (size + 4)) in *.
  destruct (send_loop (script s) spacket len 0 len (-1) (wire s))
    as [r s1| |] eqn:E; try discriminate.
  injection H as <- <-.
  replace len with (len - 0) in E at 2 by lia.
  apply send_loop_Ret in E; [|lia].
  destruct E as (k & Hw & Hk). exists k. cbn in Hw. split; [exact Hw|].
  destruct (r =? -1); cbn [negb].
  - destruct Hk as [Hk | (Hk & _ & Hk0)]; [left | right]; lia.
  - lia.
Qed.

Lemma send_loop_fail spacket len evs : forall rooms total ret_ out,
  0 <= total ->
  total + Z.of_nat (list_sum rooms) < len ->
  send_loop (map Room rooms ++ Fail :: evs) spacket len total (len - total)
            ret_ out
  = Ret (-1) (mkLine evs (out ++ firstn (list_sum rooms)
                                        (skipn (Z.to_nat total) spacket))).
Proof.
  induction rooms as [|n rooms IH]; intros total ret_ out Ht Hlt;
    [change (list_sum []) with 0%nat in *
    | change (list_sum (n :: rooms)) with (n + list_sum rooms)%nat in *];
    cbn [map app send_loop];
    replace (total <? len) with true by (symmetry; apply Z.ltb_lt; lia).
  - cbn. now rewrite app_nil_r.
  - cbn [send]. rewrite Z.min_l by lia.
    replace (Z.of_nat n =? -1) with false by (symmetry; apply Z.eqb_neq; lia).
    replace (len - total - Z.of_nat n) with (len - (total + Z.of_nat n))
      by lia.
    rewrite IH by lia. rewrite Nat2Z.id, <- app_assoc. do 3 f_equal.
    rewrite firstn_add. f_equal. rewrite skipn_skipn. do 2 f_equal. lia.
Qed.

(** X5.  A send that fails ends [send_packet] at once: it returns false,
    the bytes taken by the earlier sends stay on the wire, and no further
    [send] is made. *)
Theorem send_packet_stops_at_error size spacket s rooms evs :
  script s = (map Room rooms ++ Fail :: evs)%list ->
  Z.of_nat (list_sum rooms) < wrap32 (size + 4) ->
  send_packet size spacket s
  = Ret false (mkLine evs (wire s ++ firstn (list_sum rooms) spacket)).
Proof.
  intros Hs Hlt. unfold send_packet. rewrite Hs.
  set (len := wrap32 (size + 4)) in *.
  replace len with (len - 0) at 2 by lia.
  rewrite send_loop_fail by lia. reflexivity.
Qed.

End Sending.

(** ** Connecting *)

Section Connecting.

Import conn.

(** What the loop over the addresses does. *)
Lemma try_hosts_spec _WIN32 : forall l s,
  match try_hosts _WIN32 l s with
  | (Some sd, s') =>
      exists before a after,
        l = (before ++ a :: after)%list /\
        Forall (fun p => usable p = false) before /\
        usable a = true /\ sd = socket_answer a /\
        created s' = (created s ++ descriptors (before ++ [a]))%list /\
        lib s' = fold_left (fun os sd => net.close_socket _WIN32 sd os)
                           (descriptors (filter refused before)) (lib s) /\
        WSAStartup_calls s' = WSAStartup_calls s
  | (None, s') =>
      Forall (fun p => usable p = false) l /\
      created s' = (created s ++ descriptors l)%list /\
      lib s' = fold_left (fun os sd => net.close_socket _WIN32 sd os)
                         (descriptors (filter refused l)) (lib s) /\
      WSAStartup_calls s' = WSAStartup_calls s
  end.
Proof.
  induction l as [|p l IH]; intros s; cbn [try_hosts].
  - cbn. rewrite app_nil_r. auto.
  - unfold descriptors, usable, refused in *. cbn zeta.
    destruct (socket_answer p =? -1) eqn:Es.
    + specialize (IH s).
      destruct (try_hosts _WIN32 l s) as [[sd|] s'].
      * destruct IH as (before & a & after & -> & Hb & Ha & Hsd & Hc & Hl & Hw).
        exists (p :: before), a, after. repeat split; auto.
        -- constructor; [now rewrite Es | exact Hb].
        -- cbn [app map filter]. rewrite Es. exact Hc.
        -- cbn [filter]. rewrite Es. exact Hl.
      * destruct IH as (Hb & Hc & Hl & Hw). repeat split; auto.
        -- constructor; [now rewrite Es | exact Hb].
        -- cbn [map filter]. rewrite Es. exact Hc.
        -- cbn [filter]. rewrite Es. exact Hl.
    + destruct (connect_answer p =? net.SOCKET_ERROR) eqn:Ec.
      * match goal with
        | |- context [try_hosts _ _ ?s0] => specialize (IH s0)
        end.
        destruct (try_hosts _WIN32 l _) as [[sd|] s'].
        -- destruct IH as (before & a & after & -> & Hb & Ha & Hsd & Hc & Hl
                           & Hw).
           exists (p :: before), a, after. repeat split; auto.
           ++ constructor; [now rewrite Es, Ec | exact Hb].
           ++ cbn [app map filter]. rewrite Es. cbn [negb].
              rewrite Hc. cbn [created with_lib with_created].
              now rewrite <- app_assoc.
           ++ cbn [filter]. rewrite Es, Ec. cbn [negb andb map filter].
              rewrite Es. cbn [negb fold_left]. exact Hl.
        -- destruct IH as (Hb & Hc & Hl & Hw). repeat split; auto.
           ++ constructor; [now rewrite Es, Ec | exact Hb].
           ++ cbn [map filter]. rewrite Es. cbn [negb].
              rewrite Hc. cbn [created with_lib with_created].
              now rewrite <- app_assoc.
           ++ cbn [filter]. rewrite Es, Ec. cbn [negb andb map filter].
              rewrite Es. cbn [negb fold_left]. exact Hl.
      * exists [], p, l. repeat split; auto.
        -- now rewrite Es, Ec.
        -- cbn [app map filter]. now rewrite Es.
Qed.


Lemma close_all_true l : forall os,
  net.WSACleanup_calls
    (fold_left (fun os sd => net.close_socket true sd os) l os)
  = (net.WSACleanup_calls os + List.length l)%nat.
Proof.
  induction l as [|sd l IH]; intros os; cbn [fold_left List.length].
  - lia.
  - rewrite IH. cbn. lia.
Qed.

Lemma close_all_false l : forall os,
  fold_left (fun os sd => net.close_socket false sd os) l os = os.
Proof. induction l as [|sd l IH]; intros os; cbn; auto. Qed.

Lemma descriptors_refused l :
  List.length (descriptors (filter refused l)) = List.length (filter refused l).
Proof.
  unfold descriptors.
  induction l as [|p l IH]; cbn [filter map List.length]; [reflexivity|].
  destruct (refused p) eqn:E; [|exact IH].
  cbn [map filter]. unfold refused in E. apply andb_prop in E.
  destruct E as [-> _]. cbn. now rewrite IH.
Qed.

(** What [connect] has done when it returns. *)
Lemma connect_Ret _WIN32 s sd s' :
  connect _WIN32 s = Ret sd s' ->
  exists before a after,
    snd (getaddrinfo_answer s) = (before ++ a :: after)%list /\
    Forall (fun p => usable p = false) before /\
    usable a = true /\ sd = socket_answer a /\
    created s' = (created s ++ descriptors (before ++ [a]))%list /\
    lib s' = fold_left (fun os sd => net.close_socket _WIN32 sd os)
                       (descriptors (filter refused before)) (lib s) /\
    WSAStartup_calls s'
    = (WSAStartup_calls s + if _WIN32 then 1 else 0)%nat.
Proof.
  unfold connect, bind, init.
  assert (H : forall s0 : Stack,
             getaddrinfo_answer s0 = getaddrinfo_answer s ->
             created s0 = created s -> lib s0 = lib s ->
             (if negb (fst (getaddrinfo_answer s0) =? 0)
              then Throw (connection_exception "net::connect()"
                                               "Name resolution failed!") s0
              else match try_hosts _WIN32 (snd (getaddrinfo_answer s0)) s0 with
                   | (Some sd, s') => Ret sd s'
                   | (None, s') =>
                       Throw (connection_exception "net::connect()"
                                                   "Connection Failed.") s'
                   end) = Ret sd s' ->
             exists before a after,
               snd (getaddrinfo_answer s) = (before ++ a :: after)%list /\
               Forall (fun p => usable p = false) before /\
               usable a = true /\ sd = socket_answer a /\
               created s' = (created s ++ descriptors (before ++ [a]))%list /\
               lib s' = fold_left (fun os sd => net.close_socket _WIN32 sd os)
                          (descriptors (filter refused before)) (lib s) /\
               WSAStartup_calls s' = WSAStartup_calls s0).
  { intros s0 Hg Hc Hl. rewrite Hg.
    destruct (negb (fst (getaddrinfo_answer s) =? 0)); [discriminate|].
    pose proof (try_hosts_spec _WIN32 (snd (getaddrinfo_answer s)) s0) as T.
    destruct (try_hosts _WIN32 _ s0) as [[x|] s1]; [|discriminate].
    intros [= <- <-].
    destruct T as (before & a & after & E & Hb & Ha & Hsd & Hcr & Hlib & Hw).
    exists before, a, after. rewrite Hcr, Hlib, Hc, Hl. repeat split; auto. }
  destruct _WIN32.
  - destruct (negb (fst (WSAStartup_answer s) =? 0)); [discriminate|].
    destruct (negb (snd (WSAStartup_answer s))); [discriminate|].
    intros E. apply H in E; auto.
    destruct E as (before & a & after & E).
    exists before, a, after. cbn [WSAStartup_calls with_startup] in E.
    rewrite Nat.add_1_r. exact E.
  - intros E. apply H in E; auto.
    destruct E as (before & a & after & E).
    exists before, a, after. now rewrite Nat.add_0_r.
Qed.

(** X6.  [connect] returns the descriptor of the first address on which
    both [socket] and [connect] succeed: every address before it has
    failed, and no socket is created for an address after it. *)
Theorem connect_first_usable _WIN32 s sd s' :
  connect _WIN32 s = Ret sd s' ->
  exists before a after,
    snd (getaddrinfo_answer s) = (before ++ a :: after)%list /\
    Forall (fun p => usable p = false) before /\
    usable a = true /\ sd = socket_answer a /\
    created s' = (created s ++ descriptors (before ++ [a]))%list.
Proof.
  intros E. apply connect_Ret in E.
  destruct E as (before & a & after & E1 & E2 & E3 & E4 & E5 & _).
  now exists before, a, after.
Qed.

(** X7.  Once the library is started and the name resolved, [connect]
    throws "Connection Failed." exactly when no address of the list is
    usable; an empty list is such a list. *)
Theorem connect_fails_iff _WIN32 s :
  (_WIN32 = true -> WSAStartup_answer s = (0, true)) ->
  fst (getaddrinfo_answer s) = 0 ->
  (exists s', connect _WIN32 s
              = Throw (connection_exception "net::connect()"
                                            "Connection Failed.") s')
  <-> Forall (fun p => usable p = false) (snd (getaddrinfo_answer s)).
Proof.
  intros Hw Hg.
  set (s0 := if _WIN32 then with_startup s else s).
  assert (Hi : init _WIN32 s = Ret tt s0).
  { subst s0. unfold init. destruct _WIN32; [|reflexivity].
    now rewrite (Hw eq_refl). }
  unfold connect, bind.
  rewrite Hi.
  assert (Hg0 : getaddrinfo_answer s0 = getaddrinfo_answer s)
    by (subst s0; now destruct _WIN32).
  rewrite Hg0, Hg. cbn [Z.eqb negb].
  pose proof (try_hosts_spec _WIN32 (snd (getaddrinfo_answer s)) s0) as T.
  destruct (try_hosts _WIN32 _ s0) as [[x|] s1].
  - destruct T as (before & a & after & E & Hb & Ha & _).
    split; [intros (s' & H); discriminate|].
    intros F. rewrite E in F. apply Forall_app in F. destruct F as [_ F].
    inversion F; subst. congruence.
  - destruct T as (Hb & _). split; [auto | intros _; now exists s1].
Qed.

(** X8.  Where [_WIN32] is defined, a [connect] that succeeds after [k]
    refused connections has started the socket library once and torn it
    down [k] times; with the [cleanup] run at exit that is [k + 1]
    teardowns for one start. *)
Theorem connect_teardown_count s sd s' :
  connect true s = Ret sd s' ->
  exists before a after,
    snd (getaddrinfo_answer s) = (before ++ a :: after)%list /\
    usable a = true /\
    WSAStartup_calls s' = S (WSAStartup_calls s) /\
    net.WSACleanup_calls (lib s')
    = (net.WSACleanup_calls (lib s) + List.length (filter refused before))%nat /\
    net.WSACleanup_calls (net.cleanup true sd (lib s'))
    = (net.WSACleanup_calls (lib s) + List.length (filter refused before)
       + 1)%nat.
Proof.
  intros E. apply connect_Ret in E.
  destruct E as (before & a & after & E1 & E2 & E3 & E4 & E5 & E6 & E7).
  exists before, a, after. repeat split; auto.
  - rewrite E7. lia.
  - now rewrite E6, close_all_true, descriptors_refused.
  - unfold net.cleanup.
    assert (Hsd : (sd =? net.SOCKET_ERROR) = false).
    { subst sd. unfold usable in E3. apply andb_prop in E3.
      destruct E3 as [E3 _]. now apply negb_true_iff in E3. }
    rewrite Hsd. cbn [negb net.close_socket net.WSACleanup_calls].
    rewrite E6, close_all_true, descriptors_refused. lia.
Qed.

(** X9.  Where [_WIN32] is not defined, [connect] closes nothing: the
    socket of every refused connection has been created and is left
    open. *)
Theorem connect_leaves_sockets_open s sd s' :
  connect false s = Ret sd s' ->
  lib s' = lib s /\
  exists before a after,
    snd (getaddrinfo_answer s) = (before ++ a :: after)%list /\
    sd = socket_answer a /\
    incl (descriptors (filter refused before)) (created s').
Proof.
  intros E. apply connect_Ret in E.
  destruct E as (before & a & after & E1 & E2 & E3 & E4 & E5 & E6 & E7).
  split; [now rewrite E6, close_all_false|].
  exists before, a, after. repeat split; auto.
  rewrite E5. intros x Hx. apply in_or_app. right.
  unfold descriptors in *. rewrite map_app, filter_app.
  apply in_or_app. left.
  apply filter_In in Hx. destruct Hx as [Hx Hb].
  apply filter_In. split; [|exact Hb].
  apply in_map_iff in Hx. destruct Hx as (p & <- & Hp).
  apply filter_In in Hp. apply in_map. tauto.
Qed.

End Connecting.

(** ** Flushing and waiting *)

Section Flushing.

Import net held.




End Flushing.

Section Waiting.

Import timing.

Lemma quot_nonpos elapsed per_ms :
  0 < per_ms -> elapsed <= 0 -> Z.quot elapsed per_ms <= 0.
Proof.
  intros Hp He.
  replace elapsed with (- - elapsed) by lia.
  rewrite Z.quot_opp_l by lia.
  pose proof (Z.quot_pos (- elapsed) per_ms). lia.
Qed.

Lemma wait_loop_steady per_ms maxTime t0 : forall ticks elapsed s d t',
  0 < per_ms -> 0 < maxTime -> elapsed <= 0 ->
  Forall (fun now => t0 <= now) ticks ->
  wait_loop per_ms ticks t0 elapsed maxTime s = Some (d, t') ->
  d <= 0 /\
  exists k,
    net.readable s
    = (repeat false k ++ true :: net.readable (sock t'))%list.
Proof.
  induction ticks as [|now ticks IH]; intros elapsed s d t' Hp Hm He Hs;
    cbn [wait_loop];
    (replace (elapsed <? maxTime * per_ms) with true
      by (symmetry; apply Z.ltb_lt; nia)).
  - destruct (net.readable s) as [|[] sel] eqn:Hr; cbn [hd tl];
      try discriminate.
    intros [= <- <-]. split.
    + now apply quot_nonpos.
    + exists 0%nat. reflexivity.
  - destruct (net.readable s) as [|[] sel] eqn:Hr; cbn [hd tl].
    + intros E.
      pose proof (Forall_inv Hs) as Hn. cbn beta in Hn. apply Forall_inv_tail in Hs.
      apply IH in E; [|assumption || lia ..].
      destruct E as (Hd & k & Hk). cbn in Hk.
      destruct k; discriminate.
    + intros [= <- <-]. split.
      * now apply quot_nonpos.
      * exists 0%nat. reflexivity.
    + intros E.
      pose proof (Forall_inv Hs) as Hn. cbn beta in Hn. apply Forall_inv_tail in Hs.
      apply IH in E; [|assumption || lia ..].
      destruct E as (Hd & k & Hk). cbn in Hk.
      split; [exact Hd|]. exists (S k). cbn. now rewrite Hk.
Qed.

Lemma wait_loop_silent per_ms maxTime t0 : forall ticks elapsed s,
  0 < per_ms -> 0 < maxTime -> elapsed <= 0 ->
  Forall (fun now => t0 <= now) ticks ->
  Forall (fun b => b = false) (net.readable s) ->
  wait_loop per_ms ticks t0 elapsed maxTime s = None.
Proof.
  induction ticks as [|now ticks IH]; intros elapsed s Hp Hm He Hs Hr;
    cbn [wait_loop];
    (replace (elapsed <? maxTime * per_ms) with true
      by (symmetry; apply Z.ltb_lt; nia)).
  - destruct Hr as [|b sel Hb Hr]; cbn [hd]; [reflexivity|].
    now rewrite Hb.
  - pose proof (Forall_inv Hs) as Hn. cbn beta in Hn. apply Forall_inv_tail in Hs.
    destruct Hr as [|b sel Hb Hr]; cbn [hd tl].
    + apply IH; [assumption|assumption|lia|assumption|constructor].
    + rewrite Hb. apply IH; [assumption|assumption|lia|assumption|exact Hr].
Qed.

(** X11.  With a clock that does not run backwards and a positive
    [maxTime], [wait_for_packet] returns only because a [select] has
    answered that the socket is readable, and the time it reports is zero
    or negative: the elapsed time is taken as start minus now, so the
    limit [maxTime] is never what ends the wait. *)
Theorem wait_for_packet_never_times_out per_ms maxTime t d t' :
  0 < per_ms -> 0 < maxTime ->
  steady (steady_clock t) ->
  wait_for_packet per_ms maxTime t = Some (d, t') ->
  d <= 0 /\ d <> maxTime /\
  exists k,
    net.readable (sock t)
    = (repeat false k ++ true :: net.readable (sock t'))%list.
Proof.
  intros Hp Hm Hs. unfold wait_for_packet.
  destruct (steady_clock t) as [|t0 [|now ticks]]; try discriminate.
  cbn [steady] in Hs.
  pose proof (Forall_inv Hs) as Hn. cbn beta in Hn. apply Forall_inv_tail in Hs.
  intros E. apply wait_loop_steady in E; [|assumption || lia ..].
  destruct E as (Hd & k & Hk). repeat split; [lia | lia | now exists k].
Qed.

(** X12.  While no [select] answers that the socket is readable,
    [wait_for_packet] with a positive [maxTime] does not return, however
    long the clock runs. *)
Theorem wait_for_packet_waits_forever per_ms maxTime t :
  0 < per_ms -> 0 < maxTime ->
  steady (steady_clock t) ->
  Forall (fun b => b = false) (net.readable (sock t)) ->
  wait_for_packet per_ms maxTime t = None.
Proof.
  intros Hp Hm Hs Hr. unfold wait_for_packet.
  destruct (steady_clock t) as [|t0 [|now ticks]]; try reflexivity.
  cbn [steady] in Hs.
  pose proof (Forall_inv Hs) as Hn. cbn beta in Hn. apply Forall_inv_tail in Hs.
  apply wait_loop_silent; [assumption|assumption|lia|assumption|assumption].
Qed.

End Waiting.

(** ** Errors while a frame is received *)

Section ReceiveErrors.

Import net.






(** The earlier receiver tests the value of the read it has just made. *)
Lemma earlier_payload_closed psize : forall chunks fuel received buf s,
  pending s = map Data chunks ->
  closed s = true ->
  Forall (fun c => c <> []) chunks ->
  received + Z.of_nat (List.length (List.concat chunks)) < psize ->
  (List.length chunks < fuel)%nat ->
  exists s',
    net0.recv_payload fuel psize received buf s
    = Some (Throw (make_exception "Connection Lost! Last Error: ") s') /\
    pending s' = [] /\ cerr s' = cerr s.
Proof.
  induction chunks as [|c chunks IH];
    intros fuel received buf s Hp Hc Hne Hlen Hfuel;
    (destruct fuel as [|fuel]; [cbn in Hfuel; lia|]);
    cbn [net0.recv_payload];
    (replace (received <? psize) with true
      by (symmetry; apply Z.ltb_lt; cbn in Hlen; lia)).
  - rewrite (recv_closed _ s Hp Hc). cbn [Z.eqb].
    exists s. repeat split. exact Hp.
  - cbn [List.concat] in Hlen. rewrite length_app in Hlen.
    cbn [map] in Hp.
    rewrite (recv_chunk _ c (map Data chunks) s Hp) by lia.
    inversion Hne as [|? ? Hc0 Hne']; subst.
    replace (Z.of_nat (List.length c) =? 0) with false
      by (symmetry; apply Z.eqb_neq; destruct c; [easy | cbn; lia]).
    destruct (IH fuel (received + Z.of_nat (List.length c))
                 (store received c buf) (with_pending (map Data chunks) s))
      as (s' & E & Hp' & Hl'); auto; try lia.
    + cbn in Hfuel. lia.
    + exists s'. repeat split; auto.
Qed.

(** X15.  The receiver of [ARRCON/net.hpp] reports the close that the
    later one spins on: when the peer closes before the declared bytes
    have all arrived, it throws "Connection Lost!" once it has read what
    did arrive. *)
Theorem earlier_recv_packet_reports_close default_Packet fuel hdr chunks s :
  pending s = Data hdr :: map Data chunks ->
  closed s = true ->
  List.length hdr = 4%nat ->
  le_int hdr <= PSIZE_MAX ->
  Forall (fun c => c <> []) chunks ->
  Z.of_nat (List.length (List.concat chunks)) < le_int hdr ->
  (List.length chunks < fuel)%nat ->
  exists s',
    net0.recv_packet default_Packet fuel s
    = Some (Throw (make_exception "Connection Lost! Last Error: ") s') /\
    pending s' = [].
Proof.
  intros Hp Hc Hhdr Hmax Hne Hlen Hfuel.
  unfold net0.recv_packet.
  rewrite (recv_size hdr _ s Hp Hhdr). cbn [Z.eqb Pos.eqb negb].
  set (psize := le_int hdr) in *.
  set (s1 := with_pending _ s).
  assert (Hv : exists s2,
             (if psize <? PSIZE_MIN then log (SmallSize psize)
              else if psize >? PSIZE_MAX
                   then (log (LargeSize psize) ;; net0.flush)
                   else ret tt) s1 = Ret tt s2 /\
             pending s2 = map Data chunks /\ closed s2 = true).
  { destruct (psize <? PSIZE_MIN).
    - eexists. split; [reflexivity|]. now cbn.
    - replace (psize >? PSIZE_MAX) with false
        by (symmetry; rewrite Z.gtb_ltb; apply Z.ltb_ge; lia).
      exists s1. now repeat split. }
  destruct Hv as (s2 & -> & Hp2 & Hc2).
  destruct (earlier_payload_closed psize chunks fuel 0 [] s2)
    as (s' & E & Hp' & _); auto; try lia.
  exists s'. now rewrite E.
Qed.

End ReceiveErrors.

(** ** The session, however a call ends *)

Section SessionEnds.

Import rcon.


Lemma flush_loop_any sel : forall w,
  let o := flush_loop sel w in
  cout (state_of o) = cout w /\ sent (state_of o) = sent w /\
  ID_Manager (state_of o) = ID_Manager w /\
  forall e w', o = Throw e w' -> e = make_exception "Connection Lost!".
Proof.
  induction sel as [|b sel IH]; intros w; cbn [flush_loop];
    destruct (inbound w) as [|[p|] l]; cbn [state_of].
  1, 4: repeat split; discriminate.
  2, 4: repeat split; intros e w' [= <- _]; reflexivity.
  - cbn. repeat split. discriminate.
  - destruct b.
    + specialize (IH (with_readable sel (with_inbound l w))). cbn zeta in IH.
      exact IH.
    + cbn. repeat split. discriminate.
Qed.

Lemma flush_any w :
  let o := flush w in
  cout (state_of o) = cout w /\ sent (state_of o) = sent w /\
  ID_Manager (state_of o) = ID_Manager w /\
  forall e w', o = Throw e w' -> e = make_exception "Connection Lost!".
Proof.
  unfold flush, bind, select.
  destruct (hd false (readable w)); cbn [negb].
  - apply (flush_loop_any _ (with_readable (tl (readable w)) w)).
  - cbn. repeat split. discriminate.
Qed.

(** The loop of [rcon::command], however it ends. *)
Lemma command_loop_any terminator_pid sel : forall i wait_for_term p w o,
  command_loop terminator_pid sel i wait_for_term p w = o ->
  sent (state_of o)
  = (sent w ++ (if Nat.eqb i 0 && hd false sel
                then [TERM terminator_pid] else []))%list /\
  (exists bodies, cout (state_of o) = (cout w ++ map OutBody bodies)%list) /\
  ID_Manager (state_of o) = ID_Manager w /\
  forall e w', o = Throw e w' -> e = make_exception "Connection Lost!".
Proof.
  induction sel as [|[] sel IH]; intros i wait_for_term p w o Ho.
  1, 3: rewrite command_loop_timeout in Ho by reflexivity; subst o; cbn;
    rewrite andb_false_r, app_nil_r; repeat split;
    [exists []; cbn; now rewrite app_nil_r | discriminate].
  rewrite command_loop_round in Ho. cbn [hd]. rewrite andb_true_r.
  unfold bind at 1 in Ho. rewrite sentinel_step in Ho.
  set (w1 := if Nat.eqb i 0 then _ else _) in Ho.
  set (wt := _ || wait_for_term) in Ho.
  assert (Hw1 : inbound w1 = inbound w /\ cout w1 = cout w /\
                ID_Manager w1 = ID_Manager w /\
                sent w1 = (sent w ++ (if Nat.eqb i 0
                                      then [TERM terminator_pid] else []))%list).
  { subst w1. destruct (Nat.eqb i 0); cbn; rewrite ?app_nil_r; auto. }
  destruct Hw1 as (Hi1 & Hc1 & Hid1 & Hs1).
  cbn zeta in Ho. destruct (wt && (id p =? terminator_pid)).
  - pose proof (flush_any w1) as F. cbn zeta in F.
    destruct F as (Fc & Fs & Fi & Fe).
    unfold bind, ret in Ho.
    destruct (flush w1) as [[] w2|e w2|w2]; cbn [state_of] in *; subst o;
      cbn [state_of]; rewrite Fs, Fc, Fi, Hs1, Hc1, Hid1; repeat split;
      try (exists []; cbn; now rewrite app_nil_r); try discriminate.
    intros e' w' [= <- _]. now apply (Fe e w2).
  - unfold bind, print, recv_packet in Ho. cbn [inbound with_cout] in Ho.
    rewrite Hi1 in Ho.
    destruct (inbound w) as [|[p'|] l] eqn:Ein.
    + subst o. cbn. rewrite Hs1, Hc1, Hid1. repeat split; [|discriminate].
      now exists [p].
    + apply IH in Ho. destruct Ho as (Is & (bodies & Ic) & Ii & Ie).
      cbn [Nat.eqb andb sent cout ID_Manager with_inbound with_cout] in *.
      rewrite Is, Ic, Ii, app_nil_r, Hs1, Hc1, Hid1.
      repeat split; [|exact Ie].
      exists (p :: bodies). now rewrite <- app_assoc.
    + subst o. cbn. rewrite Hs1, Hc1, Hid1. repeat split.
      * now exists [p].
      * intros e w' [= <- _]. reflexivity.
Qed.

(** [rcon::command], however it ends. *)
Lemma command_any command_ w o :
  command command_ w = o ->
  let pid := ID_Manager w in
  let answered :=
    hd true (sendable w)
    && match inbound w with Frame _ :: _ => true | _ => false end in
  sent (state_of o)
  = (sent w ++ EXEC pid command_
       :: (if answered && hd false (readable w)
           then [TERM (wrap32 (pid + 1))] else []))%list /\
  ID_Manager (state_of o)
  = (if hd true (sendable w) then wrap32 (wrap32 (pid + 1) + 1)
     else wrap32 (pid + 1)) /\
  (forall e w', o = Throw e w' -> e = make_exception "Connection Lost!") /\
  ((forall b w', o <> Ret b w') ->
   exists items,
     cout (state_of o) = (cout w ++ items)%list /\ ~ In OutEndl items).
Proof.
  destruct w as [idm inb rd sd st co].
  unfold command, authenticate, bind, ID_Manager_get, send_packet,
    recv_packet, print, ret.
  unfold with_ID, with_send, with_inbound, with_cout.
  cbn -[command_loop wrap32 Z.add].
  destruct (hd true sd) eqn:Eok; cbn -[command_loop wrap32 Z.add].
  - destruct inb as [|[r0|] l]; cbn -[command_loop wrap32 Z.add].
    + intros <-. cbn -[wrap32 Z.add]. repeat split; [discriminate|].
      intros _. exists []. cbn. rewrite app_nil_r. auto.
    + match goal with
      | |- context [command_loop ?t ?s ?i ?wt ?p ?w0] =>
          pose proof (command_loop_any t s i wt p w0 _ eq_refl) as L;
          destruct (command_loop t s i wt p w0) as [r w1|e w1|w1]
      end; cbn [state_of Nat.eqb andb sent cout ID_Manager] in L;
        destruct L as (Ls & (bodies & Lc) & Li & Le); intros <-;
        cbn [state_of sent cout ID_Manager].
      * rewrite Ls, Li, <- app_assoc. repeat split; [discriminate|].
        intros H. exfalso. eapply H. reflexivity.
      * rewrite Ls, Li, Lc, <- !app_assoc. repeat split.
        -- intros e' w' [= <- _]. now apply (Le e w1).
        -- intros _. exists (OutPacket r0 :: map OutBody bodies).
           split; [reflexivity|].
           intros [H|H]; [discriminate|].
           apply in_map_iff in H. destruct H as (x & H & _). discriminate.
      * rewrite Ls, Li, Lc, <- !app_assoc. repeat split; [discriminate|].
        intros _. exists (OutPacket r0 :: map OutBody bodies).
        split; [reflexivity|].
        intros [H|H]; [discriminate|].
        apply in_map_iff in H. destruct H as (x & H & _). discriminate.
    + intros <-. cbn -[wrap32 Z.add]. repeat split.
      * intros e w' [= <- _]. reflexivity.
      * intros _. exists []. cbn. rewrite app_nil_r. auto.
  - intros <-. cbn -[wrap32 Z.add]. repeat split; [discriminate|].
    intros H. exfalso. eapply H. reflexivity.
Qed.

(** X16.  Whatever the server does and however the call ends,
    [rcon::command] hands the command packet to [send_packet] and at most
    one more packet, the sentinel: that one exactly when the command
    packet was sent, a first frame came back and the first [select]
    answered that the socket is readable. *)
Theorem command_sends_at_most_sentinel command_ w :
  let pid := ID_Manager w in
  let answered :=
    hd true (sendable w)
    && match inbound w with Frame _ :: _ => true | _ => false end in
  sent (state_of (command command_ w))
  = (sent w ++ EXEC pid command_
       :: (if answered && hd false (readable w)
           then [TERM (wrap32 (pid + 1))] else []))%list.
Proof. apply (command_any command_ w _ eq_refl). Qed.


(** X18.  [rcon::command] draws the id of the sentinel as soon as the
    command packet is sent, whether or not the sentinel is sent later: a
    call takes two ids from the counter, and one when the command packet
    could not be sent. *)
Theorem command_draws_two_ids command_ w :
  ID_Manager (state_of (command command_ w))
  = if hd true (sendable w)
    then wrap32 (wrap32 (ID_Manager w + 1) + 1)
    else wrap32 (ID_Manager w + 1).
Proof. apply (command_any command_ w _ eq_refl). Qed.

End SessionEnds.

(** ** The driver, from the connection to the exit code *)

Section DriverEnds.

Import driver.

Variable mode_commandline : list string -> IO unit.
Variable mode_interactive : Z -> IO unit.

(** [rcon::authenticate] when the Auth request cannot be sent. *)
Lemma authenticate_unsent passwd w l :
  rcon.sendable w = false :: l ->
  rcon.authenticate passwd w
  = Ret false
        (rcon.with_send l
           (make (rcon.ID_Manager w) Type_.SERVERDATA_AUTH passwd)
           (rcon.with_ID (wrap32 (rcon.ID_Manager w + 1)) w)).
Proof.
  intros Hs. destruct w as [idm inb rd sd st co]. cbn in Hs. subst sd.
  reflexivity.
Qed.

(** X19.  When the Auth request cannot be sent, [main] reports a wrong
    password: [rcon::authenticate] returns false without reading
    anything, and [main] throws [badpass_exception] and returns 1. *)
Theorem unsent_auth_reported_as_bad_password Global commands w sd l :
  connect_answer w = Some sd ->
  sd <> net.SOCKET_ERROR ->
  allowBlankPassword Global = true \/ utils.empty (password Global) = false ->
  rcon.sendable (session w) = false :: l ->
  exists w',
    main_body mode_commandline mode_interactive Global commands w
      = Throw badpass_exception w' /\
    main mode_commandline mode_interactive Global commands w = Ret 1 w' /\
    rcon.inbound (session w') = rcon.inbound (session w) /\
    rcon.cout (session w') = rcon.cout (session w).
Proof.
  intros Hc Hsd Hpw Hs.
  unfold main, main_body, bind, connect, lift, throw.
  rewrite Hc. cbn [Global_socket session connect_answer].
  apply Z.eqb_neq in Hsd. rewrite Hsd. cbn [negb].
  assert (Hg : negb (allowBlankPassword Global)
               && utils.empty (password Global) = false).
  { destruct Hpw as [-> | ->]; [reflexivity | apply andb_false_r]. }
  rewrite Hg. cbn [session Global_socket connect_answer].
  rewrite (authenticate_unsent _ _ l Hs).
  eexists. repeat split.
Qed.


End DriverEnds.

(** ** The command list, script by script *)

Section Scripts.

Import utils.

Lemma fold_scripts env : forall files acc,
  fold_left
    (fun commands file =>
       match read_script_file env file with
       | [] => commands
       | script_commands =>
           fold_left (fun commands command => (commands ++ [command])%list)
                     script_commands commands
       end)
    files acc
  = (acc ++ flat_map (read_script_file env) files)%list.
Proof.
  induction files as [|f files IH]; intros acc; cbn [fold_left flat_map].
  - now rewrite app_nil_r.
  - rewrite IH. destruct (read_script_file env f) as [|c script] eqn:Er.
    + reflexivity.
    + now rewrite fold_push, <- !app_assoc.
Qed.

(** X21.  A script file that is not found, or whose stream fails, is
    passed over: the command list is the one the other script files
    give, those after it included. *)
Theorem get_commands_skips_bad_script P h c fs1 f fs2
    (fe : string -> bool) (pr : string -> string)
    (fr : string -> option (list string)) :
  (let g := if fe f then f else pr f in fe g = false \/ fr g = None) ->
  get_commands (mkEnv P h c (fs1 ++ f :: fs2)%list fe pr fr)
  = get_commands (mkEnv P h c (fs1 ++ fs2)%list fe pr fr).
Proof.
  intros Hbad. unfold get_commands. cbn [scriptfiles Parameters
    hasPendingDataSTDIN cin].
  rewrite !fold_scripts. f_equal.
  rewrite !flat_map_app. f_equal. cbn [flat_map].
  assert (E : forall l, read_script_file (mkEnv P h c l fe pr fr) f = []).
  { intros l. unfold read_script_file. cbn [file_exists PATH_resolve file_read].
    cbn zeta in Hbad. destruct Hbad as [-> | ->]; [reflexivity|].
    now destruct (fe (if fe f then f else pr f)). }
  assert (R : forall l1 l2 g,
             read_script_file (mkEnv P h c l1 fe pr fr) g
             = read_script_file (mkEnv P h c l2 fe pr fr) g)
    by reflexivity.
  rewrite E. cbn [app].
  apply flat_map_ext. intros g. apply R.
Qed.

Import RCON_main.

Lemma earlier_read_script_file env f :
  unreadable env f = false ->
  RCON_main.read_script_file env f = inr (utils.read_script_file env f).
Proof.
  unfold unreadable, RCON_main.read_script_file, utils.read_script_file.
  destruct (file_exists env (if file_exists env f then f
                             else PATH_resolve env f)); cbn [negb andb];
    [|reflexivity].
  destruct (file_read env _); [reflexivity | discriminate].
Qed.

Lemma earlier_loop env quiet : forall files vec cout,
  Forall (fun f => unreadable env f = false) files ->
  get_commands_loop env quiet files vec cout
  = inr ((vec ++ flat_map (utils.read_script_file env) files)%list, cout).
Proof.
  induction files as [|f files IH]; intros vec cout Hf;
    cbn [get_commands_loop flat_map].
  - now rewrite app_nil_r.
  - pose proof (Forall_inv Hf) as Hr. cbn beta in Hr.
    apply Forall_inv_tail in Hf.
    rewrite (earlier_read_script_file env f Hr).
    rewrite Nat.ltb_irrefl, andb_false_r, fold_push, IH by exact Hf.
    now rewrite <- app_assoc.
Qed.

(** X22.  The [get_commands] of [RCON/main.cpp] gives the command list
    of the later one when standard input has nothing pending, no script
    file fails to be read and both resolve the file names alike; it never
    writes its line "Successfully read commands from", quiet or not. *)
Theorem earlier_get_commands_agrees env quiet :
  hasPendingDataSTDIN env = false ->
  Forall (fun f => unreadable env f = false) (scriptfiles env) ->
  RCON_main.get_commands env quiet = inr (utils.get_commands env, []).
Proof.
  intros Hin Hf. unfold RCON_main.get_commands, utils.get_commands.
  rewrite Hin, fold_scripts. now apply earlier_loop.
Qed.

(** X23.  In [RCON/main.cpp] one script file whose stream fails costs the
    whole command list: [get_commands] throws, where the later one
    passes the file over. *)
Theorem earlier_get_commands_throws env quiet f :
  In f (scriptfiles env) ->
  unreadable env f = true ->
  exists g,
    RCON_main.get_commands env quiet
    = inl (make_exception
             ("IO Error Reading File: " ++ quote ++ g ++ quote)).
Proof.
  unfold RCON_main.get_commands.
  generalize (Parameters env) as vec. generalize (@nil string) as cout.
  induction (scriptfiles env) as [|f0 files IH]; intros cout vec Hin Hu;
    [destruct Hin|].
  cbn [get_commands_loop].
  destruct (RCON_main.read_script_file env f0) as [e|commands] eqn:Er.
  - unfold RCON_main.read_script_file in Er.
    destruct (negb (file_exists env _)); [discriminate|].
    destruct (file_read env _); [discriminate|].
    injection Er as <-. eexists. reflexivity.
  - destruct Hin as [-> | Hin].
    + unfold unreadable in Hu. unfold RCON_main.read_script_file in Er.
      apply andb_prop in Hu. destruct Hu as [Hu1 Hu2].
      rewrite Hu1 in Er. cbn [negb] in Er.
      destruct (file_read env _); discriminate.
    + now apply IH.
Qed.

End Scripts.

(** ** The receiver of the first client *)

Section FirstReceiver.

Import net.

Lemma first_payload_closed psize : forall chunks fuel received buf st,
  pending (RCON_net.sock st) = map Data chunks ->
  closed (RCON_net.sock st) = true ->
  Forall (fun c => c <> []) chunks ->
  received + Z.of_nat (List.length (List.concat chunks)) < psize ->
  (List.length chunks < fuel)%nat ->
  exists st',
    RCON_net.recv_payload fuel psize received buf st = Some (Ret None st') /\
    pending (RCON_net.sock st') = [] /\
    RCON_net.g_connected st' = false /\
    RCON_net.cerr st' = (RCON_net.cerr st ++ [RCON_net.LostInPayload])%list.
Proof.
  induction chunks as [|c chunks IH];
    intros fuel received buf st Hp Hc Hne Hlen Hfuel;
    (destruct fuel as [|fuel]; [cbn in Hfuel; lia|]);
    cbn [RCON_net.recv_payload];
    (replace (received <? psize) with true
      by (symmetry; apply Z.ltb_lt; cbn in Hlen; lia));
    unfold RCON_net.recv.
  - rewrite (recv_closed _ _ Hp Hc). cbn [Z.eqb].
    eexists. split; [reflexivity|]. cbn. now rewrite Hp.
  - cbn [List.concat] in Hlen. rewrite length_app in Hlen.
    cbn [map] in Hp.
    rewrite (recv_chunk _ c (map Data chunks) _ Hp) by lia.
    inversion Hne as [|? ? Hc0 Hne']; subst.
    replace (Z.of_nat (List.length c) =? 0) with false
      by (symmetry; apply Z.eqb_neq; destruct c; [easy | cbn; lia]).
    destruct (IH fuel (received + Z.of_nat (List.length c))
                 (store received c buf)
                 (RCON_net.mkClient
                    (with_pending (map Data chunks) (RCON_net.sock st))
                    (RCON_net.cerr st) (RCON_net.g_connected st)))
      as (st' & E & Hp' & Hg' & Hl'); auto; try lia.
    + cbn in Hfuel. lia.
    + exists st'. repeat split; auto.
Qed.

(** X24.  The receiver of [RCON/net.hpp] answers a connection closed
    before the declared bytes have all arrived with [std::nullopt]: it
    reads what did arrive, writes "Connection lost." and clears
    [g_connected]. *)
Theorem first_recv_packet_gives_nullopt fuel hdr chunks st :
  pending (RCON_net.sock st) = Data hdr :: map Data chunks ->
  closed (RCON_net.sock st) = true ->
  List.length hdr = 4%nat ->
  le_int hdr <= PSIZE_MAX ->
  Forall (fun c => c <> []) chunks ->
  Z.of_nat (List.length (List.concat chunks)) < le_int hdr ->
  (List.length chunks < fuel)%nat ->
  exists st',
    RCON_net.recv_packet fuel st = Some (Ret None st') /\
    pending (RCON_net.sock st') = [] /\
    RCON_net.g_connected st' = false /\
    last (RCON_net.cerr st') RCON_net.LostAtSize = RCON_net.LostInPayload.
Proof.
  intros Hp Hc Hhdr Hmax Hne Hlen Hfuel.
  unfold RCON_net.recv_packet, RCON_net.recv at 1.
  rewrite (recv_size hdr _ _ Hp Hhdr). cbn [Z.eqb Pos.eqb negb].
  set (psize := le_int hdr) in *.
  set (st1 := RCON_net.mkClient _ _ _).
  assert (Hv : exists st2,
             (if psize <? PSIZE_MIN then RCON_net.log (RCON_net.SmallSize psize)
              else if psize >? PSIZE_MAX
                   then (RCON_net.log (RCON_net.LargeSize psize) ;;
                         RCON_net.flush PSIZE_MAX ;; ret tt)
                   else ret tt) st1 = Ret tt st2 /\
             pending (RCON_net.sock st2) = map Data chunks /\
             closed (RCON_net.sock st2) = true).
  { destruct (psize <? PSIZE_MIN).
    - eexists. split; [reflexivity|]. cbn. now split.
    - replace (psize >? PSIZE_MAX) with false
        by (symmetry; rewrite Z.gtb_ltb; apply Z.ltb_ge; lia).
      exists st1. cbn. now repeat split. }
  destruct Hv as (st2 & -> & Hp2 & Hc2).
  destruct (first_payload_closed psize chunks fuel 0 [] st2)
    as (st' & E & Hp' & Hg' & Hl'); auto; try lia.
  exists st'. rewrite E. repeat split; auto.
  rewrite Hl'. apply last_last.
Qed.

End FirstReceiver.

(** ** The further properties at work *)



Lemma recv_packet_split_size_short :
  net.recv_packet 1 cases.short_size
  = Some (Throw (socket_exception "net::recv_packet()"
                                  "Received a corrupted packet!")
                (net.with_pending [net.Data [0; 0]] cases.short_size)).
Proof.
  apply (recv_packet_split_size 1 [10; 0] [net.Data [0; 0]] cases.short_size).
  - reflexivity.
  - cbn. lia.
Defined.

Lemma send_packet_writes_all_slow :
  exists k : nat,
    tx.wire (tx.mkLine [] cases.frame7)
    = (tx.wire cases.slow_line ++ firstn k cases.frame7)%list /\
    Z.of_nat k = Z.max 0 (wrap32 (10 + 4)).
Proof.
  apply (send_packet_writes_all 10 cases.frame7 cases.slow_line true
           (tx.mkLine [] cases.frame7)).
  reflexivity.
Defined.

Lemma send_packet_stops_at_error_failing :
  tx.send_packet 10 cases.frame7 cases.failing_line
  = Ret false (tx.mkLine [tx.Room 100] [10; 0; 0]).
Proof.
  apply (send_packet_stops_at_error 10 cases.frame7 cases.failing_line
           [3%nat] [tx.Room 100]).
  - reflexivity.
  - vm_compute. reflexivity.
Defined.

Lemma connect_first_usable_hosts :
  exists before a after,
    snd (conn.getaddrinfo_answer cases.hosts) = (before ++ a :: after)%list /\
    Forall (fun p => conn.usable p = false) before /\
    conn.usable a = true /\ 5 = conn.socket_answer a /\
    conn.created (state_of (conn.connect true cases.hosts))
    = (conn.created cases.hosts ++ conn.descriptors (before ++ [a]))%list.
Proof.
  apply (connect_first_usable true cases.hosts 5
           (state_of (conn.connect true cases.hosts))).
  reflexivity.
Defined.

Lemma connect_fails_iff_dead_hosts :
  (exists s', conn.connect true cases.dead_hosts
              = Throw (connection_exception "net::connect()"
                                            "Connection Failed.") s')
  <-> Forall (fun p => conn.usable p = false)
             (snd (conn.getaddrinfo_answer cases.dead_hosts)).
Proof.
  apply (connect_fails_iff true cases.dead_hosts).
  - intros _. reflexivity.
  - reflexivity.
Defined.

Lemma connect_teardown_count_hosts :
  exists before a after,
    snd (conn.getaddrinfo_answer cases.hosts) = (before ++ a :: after)%list /\
    conn.usable a = true /\
    conn.WSAStartup_calls (state_of (conn.connect true cases.hosts))
    = S (conn.WSAStartup_calls cases.hosts) /\
    net.WSACleanup_calls
      (conn.lib (state_of (conn.connect true cases.hosts)))
    = (net.WSACleanup_calls (conn.lib cases.hosts)
       + List.length (filter conn.refused before))%nat /\
    net.WSACleanup_calls
      (net.cleanup true 5
         (conn.lib (state_of (conn.connect true cases.hosts))))
    = (net.WSACleanup_calls (conn.lib cases.hosts)
       + List.length (filter conn.refused before) + 1)%nat.
Proof.
  apply (connect_teardown_count cases.hosts 5
           (state_of (conn.connect true cases.hosts))).
  reflexivity.
Defined.

Lemma connect_leaves_sockets_open_hosts :
  conn.lib (state_of (conn.connect false cases.hosts)) = conn.lib cases.hosts /\
  exists before a after,
    snd (conn.getaddrinfo_answer cases.hosts) = (before ++ a :: after)%list /\
    5 = conn.socket_answer a /\
    incl (conn.descriptors (filter conn.refused before))
         (conn.created (state_of (conn.connect false cases.hosts))).
Proof.
  apply (connect_leaves_sockets_open cases.hosts 5
           (state_of (conn.connect false cases.hosts))).
  reflexivity.
Defined.


Lemma wait_for_packet_never_times_out_ticking :
  -15 <= 0 /\ -15 <> 3 /\
  exists k,
    net.readable (timing.sock cases.ticking)
    = (repeat false k ++ true :: [])%list.
Proof.
  apply (wait_for_packet_never_times_out 1 3 cases.ticking (-15)
           (timing.mkTimed (net.mkSocket [] false [] []) [120])).
  - lia.
  - lia.
  - repeat constructor; cbn; lia.
  - reflexivity.
Defined.

Lemma wait_for_packet_waits_forever_silent :
  timing.wait_for_packet 1 3 cases.silent = None.
Proof.
  apply (wait_for_packet_waits_forever 1 3 cases.silent).
  - lia.
  - lia.
  - repeat constructor; cbn; lia.
  - constructor.
Defined.



Lemma earlier_recv_packet_reports_close_truncated :
  exists s',
    net0.recv_packet (make 0 0 "") 1 scenario.truncated
    = Some (Throw (make_exception "Connection Lost! Last Error: ") s') /\
    net.pending s' = [].
Proof.
  apply (earlier_recv_packet_reports_close (make 0 0 "") 1 [14; 0; 0; 0] []
           scenario.truncated).
  - reflexivity.
  - reflexivity.
  - reflexivity.
  - vm_compute. discriminate.
  - constructor.
  - vm_compute. reflexivity.
  - cbn. lia.
Defined.


Lemma unsent_auth_reported_as_bad_password_unsendable :
  exists w',
    driver.main_body (fun _ => ret tt) (fun _ => ret tt)
      scenario.wrong_password ["status"] cases.unsendable
      = Throw badpass_exception w' /\
    driver.main (fun _ => ret tt) (fun _ => ret tt)
      scenario.wrong_password ["status"] cases.unsendable = Ret 1 w' /\
    rcon.inbound (driver.session w')
    = rcon.inbound (driver.session cases.unsendable) /\
    rcon.cout (driver.session w')
    = rcon.cout (driver.session cases.unsendable).
Proof.
  apply (unsent_auth_reported_as_bad_password (fun _ => ret tt)
           (fun _ => ret tt) scenario.wrong_password ["status"]
           cases.unsendable 3 []).
  - reflexivity.
  - discriminate.
  - right. reflexivity.
  - reflexivity.
Defined.


Lemma get_commands_skips_bad_script_missing :
  utils.get_commands
    (utils.mkEnv ["list"] false [] (["a.txt"] ++ "missing" :: ["b.txt"])%list
                 cases.file_exists cases.PATH_resolve cases.file_read)
  = utils.get_commands
      (utils.mkEnv ["list"] false [] (["a.txt"] ++ ["b.txt"])%list
                   cases.file_exists cases.PATH_resolve cases.file_read).
Proof.
  apply (get_commands_skips_bad_script ["list"] false [] ["a.txt"] "missing"
           ["b.txt"] cases.file_exists cases.PATH_resolve cases.file_read).
  left. reflexivity.
Defined.

Lemma earlier_get_commands_agrees_scripted :
  RCON_main.get_commands cases.scripted false
  = inr (utils.get_commands cases.scripted, []).
Proof.
  apply (earlier_get_commands_agrees cases.scripted false).
  - reflexivity.
  - repeat constructor.
Defined.

Lemma earlier_get_commands_throws_locked :
  exists g,
    RCON_main.get_commands cases.locked true
    = inl (make_exception
             ("IO Error Reading File: " ++ RCON_main.quote ++ g
                ++ RCON_main.quote)).
Proof.
  apply (earlier_get_commands_throws cases.locked true "locked.txt").
  - right. left. reflexivity.
  - reflexivity.
Defined.

Lemma first_recv_packet_gives_nullopt_truncated :
  exists st',
    RCON_net.recv_packet 1 (RCON_net.mkClient scenario.truncated [] true)
    = Some (Ret None st') /\
    net.pending (RCON_net.sock st') = [] /\
    RCON_net.g_connected st' = false /\
    last (RCON_net.cerr st') RCON_net.LostAtSize = RCON_net.LostInPayload.
Proof.
  apply (first_recv_packet_gives_nullopt 1 [14; 0; 0; 0] []
           (RCON_net.mkClient scenario.truncated [] true)).
  - reflexivity.
  - reflexivity.
  - reflexivity.
  - vm_compute. discriminate.
  - constructor.
  - vm_compute. reflexivity.
  - cbn. lia.
Defined.
